(** * IC-Light nodes for ComfyUI: a shallow embedding of [ic_light_nodes.py]

    The development follows the layout of the Python module:

    - [Py]      exceptions and the error monad used for fallible code;
    - tensors   the part of [torch] the nodes use (shape, device, dtype and
                row-major data; iteration, [None] indexing, [torch.cat],
                [Tensor.to], broadcasting arithmetic);
    - host      the part of ComfyUI's [ModelPatcher] the nodes call;
    - nodes     [VAEEncodeArgMax.encode], [ICLightApplyMaskGrey.apply_mask]
                and [ICLight.apply] with its three closures.

    Scalars are kept abstract (class [Scalar]): every structural result holds
    for whatever arithmetic the tensors carry.  Two executable instances are
    given: IEEE 754 binary floating point in the four formats of the dtypes
    ([spec_float], the arithmetic the nodes run on), and exact rationals
    ([Qc]). *)

From Stdlib Require Import QArith Qcanon Lqa SpecFloat.
From stdpp Require Import base option list gmap strings fin_maps.

Set Default Proof Using "Type".

(* ===================================================================== *)
(** ** Python exceptions and results *)
(* ===================================================================== *)

Module Py.

(** The exceptions the nodes can meet.  [DanglingReference] is not a Python
    exception: it is what the store model answers for a handle that names
    no object, which Python references rule out. *)
Inductive exn :=
  | KeyError
  | TypeError
  | AssertionError
  | RuntimeError
  | IndexError
  | ZeroDivisionError
  | DanglingReference.

Inductive result (A : Type) :=
  | Ok (a : A)
  | Raise (e : exn).
Arguments Ok {A} a.
Arguments Raise {A} e.

Definition result_bind {A B} (f : A → result B) (r : result A) : result B :=
  match r with
  | Ok a => f a
  | Raise e => Raise e
  end.

Definition of_option {A} (e : exn) (o : option A) : result A :=
  match o with
  | Some a => Ok a
  | None => Raise e
  end.

(** Python's [n // d] on non-negative integers. *)
Definition floordiv (n d : nat) : result nat :=
  if decide (d = 0) then Raise ZeroDivisionError else Ok (n / d).

(** Stateful fallible code: a state-passing function that ends normally or
    by an exception; the state it leaves is kept in both cases. *)
Definition StateE (St A : Type) : Type := St → result A * St.

Definition st_ret {St A} (a : A) : StateE St A := λ s, (Ok a, s).

Definition st_raise {St A} (e : exn) : StateE St A := λ s, (Raise e, s).

Definition st_bind {St A B} (m : StateE St A) (f : A → StateE St B) : StateE St B :=
  λ s, match m s with
       | (Ok a, s') => f a s'
       | (Raise e, s') => (Raise e, s')
       end.

Definition st_lift {St A} (r : result A) : StateE St A := λ s, (r, s).

Definition st_gets {St A} (f : St → A) : StateE St A := λ s, (Ok (f s), s).

Definition st_modify {St} (f : St → St) : StateE St unit := λ s, (Ok tt, f s).

(** [try: body finally: final].  The [finally] block runs on every exit of
    the body; the outcome is the body's unless the block itself raises. *)
Definition try_finally {St A} (body : StateE St A) (final : StateE St unit) : StateE St A :=
  λ s, let '(r, s1) := body s in
       match final s1 with
       | (Ok _, s2) => (r, s2)
       | (Raise e, s2) => (Raise e, s2)
       end.

End Py.
Export Py.

Notation "'let*' x ':=' m 'in' k" := (st_bind m (λ x, k))
  (at level 10, x name, m at level 100, k at level 200, only parsing).

#[global] Instance result_ret : MRet result := @Ok.
#[global] Instance result_mbind : MBind result := @result_bind.
#[global] Instance exn_eq_dec : EqDecision exn.
Proof. solve_decision. Defined.

(* ===================================================================== *)
(** ** Tensors *)
(* ===================================================================== *)

Inductive Device :=
  | Cpu
  | Cuda (index : nat).

Inductive DType :=
  | Float16
  | BFloat16
  | Float32
  | Float64.

#[global] Instance Device_eq_dec : EqDecision Device.
Proof. solve_decision. Defined.
#[global] Instance DType_eq_dec : EqDecision DType.
Proof. solve_decision. Defined.

(** [torch.promote_types] on the floating-point types. *)
Definition promote_types (a b : DType) : DType :=
  match a, b with
  | Float64, _ | _, Float64 => Float64
  | Float32, _ | _, Float32 => Float32
  | Float16, Float16 => Float16
  | BFloat16, BFloat16 => BFloat16
  | Float16, BFloat16 | BFloat16, Float16 => Float32
  end.

(** The arithmetic the nodes perform on tensor elements.  Every operation
    takes the precision it is carried out in, so that an instance is free to
    round; [s_cast] is the conversion of [Tensor.to(dtype=...)].  [s_one] is
    the Python literal [1] and [s_half] the literal [0.5] of [apply_mask]. *)
Class Scalar (T : Type) := {
  smul : DType → T → T → T;
  sadd : DType → T → T → T;
  ssub : DType → T → T → T;
  s_cast : DType → T → T;
  s_zero : T;
  s_one : T;
  s_half : T;
}.

(** Number of elements of a shape. *)
Definition numel (sh : list nat) : nat := foldr Nat.mul 1 sh.

(** Row-major offset of a multi-index. *)
Fixpoint offset (sh idx : list nat) : nat :=
  match sh, idx with
  | _ :: r, i :: idx' => i * numel r + offset r idx'
  | _, _ => 0
  end.

(** A multi-index is in range for a shape. *)
Fixpoint in_range (sh idx : list nat) : bool :=
  match sh, idx with
  | [], [] => true
  | n :: r, i :: idx' => bool_decide (i < n) && in_range r idx'
  | _, _ => false
  end.

(** [k] consecutive chunks of [n] elements. *)
Fixpoint chunks {A} (n k : nat) (l : list A) : list (list A) :=
  match k with
  | 0 => []
  | S k' => take n l :: chunks n k' (drop n l)
  end.

Section tensors.
Context {T : Type} `{!Scalar T}.

(** A tensor: where it lives, its precision, its shape and its elements in
    row-major order. *)
Record Tensor := mkTensor {
  device : Device;
  dtype : DType;
  shape : list nat;
  data : list T;
}.

(** The storage holds exactly the elements the shape announces. *)
Definition wf (t : Tensor) : Prop := length (data t) = numel (shape t).

Definition ndim (t : Tensor) : nat := length (shape t).

(** [t[i0, ..., ik]] for a full multi-index. *)
Definition get (t : Tensor) (idx : list nat) : option T :=
  if in_range (shape t) idx then data t !! offset (shape t) idx else None.

(** [t.to(device)] *)
Definition to_device (d : Device) (t : Tensor) : Tensor :=
  mkTensor d (dtype t) (shape t) (data t).

(** [t * s] for a Python float [s]: a floating-point tensor keeps its
    dtype. *)
Definition mul_scalar (t : Tensor) (s : T) : Tensor :=
  mkTensor (device t) (dtype t) (shape t) ((λ x, smul (dtype t) x s) <$> data t).

(** [1 - t] *)
Definition rsub_one (t : Tensor) : Tensor :=
  mkTensor (device t) (dtype t) (shape t) ((λ x, ssub (dtype t) s_one x) <$> data t).

(** Iterating over a tensor ([for c in t]) yields its slices along the
    first axis; a 0-d tensor is not iterable. *)
Definition unbind (t : Tensor) : result (list Tensor) :=
  match shape t with
  | [] => Raise TypeError
  | b :: rest =>
      Ok (mkTensor (device t) (dtype t) rest <$> chunks (numel rest) b (data t))
  end.

(** [t[None, ...]] *)
Definition index_none (t : Tensor) : Tensor :=
  mkTensor (device t) (dtype t) (1 :: shape t) (data t).

(** [t.unsqueeze(-1)] *)
Definition unsqueeze_last (t : Tensor) : Tensor :=
  mkTensor (device t) (dtype t) (shape t ++ [1]) (data t).

(** Operands of [torch.cat] agree in rank, in every size but the one
    along [dim], and in device. *)
Definition cat_compatible (dim : nat) (t0 t : Tensor) : bool :=
  bool_decide (length (shape t) = length (shape t0)
               ∧ <[dim := 0]> (shape t) = <[dim := 0]> (shape t0)
               ∧ device t = device t0).

(** [torch.cat(ts, dim=dim)] for operands of equal rank.  An empty list
    is refused ("expected a non-empty list of Tensors"). *)
Definition torch_cat (ts : list Tensor) (dim : nat) : result Tensor :=
  match ts with
  | [] => Raise RuntimeError
  | t0 :: _ =>
      if bool_decide (dim < length (shape t0)) then
        if forallb (cat_compatible dim t0) ts then
          let outer := numel (take dim (shape t0)) in
          let inner := numel (drop (S dim) (shape t0)) in
          let width t := nth dim (shape t) 0 * inner in
          Ok (mkTensor
                (device t0)
                (foldr promote_types (dtype t0) (dtype <$> ts))
                (<[dim := sum_list ((λ t, nth dim (shape t) 0) <$> ts)]> (shape t0))
                (i ← seq 0 outer; t ← ts;
                 take (width t) (drop (i * width t) (data t))))
        else Raise RuntimeError
      else Raise IndexError
  end.

(** All operands have shape [sh], device [dev] and dtype [dt]. *)
Definition uniform (sh : list nat) (dev : Device) (dt : DType) (ts : list Tensor) : Prop :=
  Forall (λ t, shape t = sh ∧ device t = dev ∧ dtype t = dt) ts.

(** *** The conditioning tensor ([ICLight.apply], lines 96-98)

    [concat_conds = c_concat["samples"] * scale_factor] followed by
    [torch.cat([c[None, ...] for c in concat_conds], dim=1)]. *)
Definition concat_conds (samples : Tensor) (scale_factor : T) : result Tensor :=
  let scaled := mul_scalar samples scale_factor in
  cs ← unbind scaled;
  torch_cat (index_none <$> cs) 1.

(** *** Broadcasting arithmetic *)

(** All multi-indices of a shape, in row-major order. *)
Fixpoint indices (sh : list nat) : list (list nat) :=
  match sh with
  | [] => [[]]
  | n :: r => i ← seq 0 n; (λ idx, i :: idx) <$> indices r
  end.

Definition broadcast_dim (a b : nat) : option nat :=
  if decide (a = b) then Some a
  else if decide (a = 1) then Some b
  else if decide (b = 1) then Some a
  else None.

(** Shapes are aligned at their last axis, so the recursion runs over the
    reversed shapes. *)
Fixpoint broadcast_rev (s1 s2 : list nat) : option (list nat) :=
  match s1, s2 with
  | [], s | s, [] => Some s
  | a :: r1, b :: r2 =>
      n ← broadcast_dim a b; r ← broadcast_rev r1 r2; Some (n :: r)
  end.

Definition broadcast_shapes (s1 s2 : list nat) : option (list nat) :=
  reverse <$> broadcast_rev (reverse s1) (reverse s2).

(** The index into an operand of shape [sh] that a result index reads: the
    trailing axes of the result, with 0 along every axis of size 1. *)
Definition expand_index (sh idx : list nat) : list nat :=
  zip_with (λ n i, if decide (n = 1) then 0 else i) sh
           (drop (length idx - length sh) idx).

(** [a op b] elementwise with broadcasting; both operands live on one
    device, the result has the promoted dtype.  ([IndexError] stands for a
    storage shorter than its shape announces, which [wf] tensors exclude.) *)
Definition broadcast_op (f : DType → T → T → T) (a b : Tensor) : result Tensor :=
  if decide (device a = device b) then
    match broadcast_shapes (shape a) (shape b) with
    | Some sh =>
        let dt := promote_types (dtype a) (dtype b) in
        d ← of_option IndexError
              (mapM (λ idx, x ← get a (expand_index (shape a) idx);
                            y ← get b (expand_index (shape b) idx);
                            Some (f dt x y))
                    (indices sh));
        Ok (mkTensor (device a) dt sh d)
    | None => Raise RuntimeError
    end
  else Raise RuntimeError.

(* ===================================================================== *)
(** ** Python values, call parameters and forward programs *)
(* ===================================================================== *)

(** The values that travel through the nodes' mappings: tensors, and
    anything else. *)
Inductive pyval :=
  | PTensor (t : Tensor)
  | PObject (repr : string).

Definition as_tensor (v : pyval) : result Tensor :=
  match v with
  | PTensor t => Ok t
  | PObject _ => Raise TypeError
  end.

(** [class UnetParams(TypedDict)] *)
Record UnetParams := mkUnetParams {
  input : Tensor;
  timestep : Tensor;
  c : gmap string pyval;
  cond_or_uncond : Tensor;
}.

(** One call of the model's native forward function.  The keyword call
    [unet_apply(x=..., t=..., **c)] is recorded by its three parts; the
    conditioning mapping is taken to have no entry named [x] or [t]. *)
Record ForwardCall := mkForwardCall {
  call_x : Tensor;
  call_t : Tensor;
  call_kwargs : gmap string pyval;
}.

(** What a forward-wrapper stage does: it ends (normally or by raising), or
    it invokes the native forward and goes on with what that returned or
    raised. *)
Inductive prog (A : Type) :=
  | Done (r : result A)
  | Forward (call : ForwardCall) (k : result Tensor → prog A).
Arguments Done {A} r.
Arguments Forward {A} call k.

(** The callable handed to a wrapper as [unet_apply]. *)
Definition UnetApply : Type := Tensor → Tensor → gmap string pyval → prog Tensor.

(** A [model_function_wrapper]: a Python function of two parameters,
    [def wrapper(unet_apply, <params_name>)].  [wrapper_call] is what the
    function does once its parameters are bound; applying a wrapper to two
    arguments is the positional call [wrapper(unet_apply, params)]. *)
Record Wrapper := mkWrapper {
  params_name : string;
  wrapper_call :> UnetApply → UnetParams → prog Tensor;
}.

(** The call [wrapper(unet_apply, params=p)]: the second argument is passed
    by keyword.  It binds when the wrapper's second parameter is named
    [params]; for any other name Python raises [TypeError] (unexpected keyword
    argument) and the wrapper's body is not entered. *)
Definition call_params_keyword (wrapper : Wrapper) (unet_apply : UnetApply)
    (p : UnetParams) : prog Tensor :=
  if decide (params_name wrapper = "params") then wrapper unet_apply p
  else Done (Raise TypeError).

(** The native forward function of the model. *)
Definition native_forward : UnetApply :=
  λ x t kwargs, Forward (mkForwardCall x t kwargs) Done.

(** Running a forward program against the model: the outcome and the native
    forward calls made, in order. *)
Fixpoint run {A} (model_fn : ForwardCall → result Tensor) (p : prog A)
    : result A * list ForwardCall :=
  match p with
  | Done r => (r, [])
  | Forward call k =>
      let '(r, calls) := run model_fn (k (model_fn call)) in (r, call :: calls)
  end.




(* ===================================================================== *)
(** ** The host: ComfyUI's model patcher *)
(* ===================================================================== *)

(** A weight patch [(kind, [delta, {"pad_weight": b}])]. *)
Record Patch := mkPatch {
  patch_kind : string;
  patch_delta : Tensor;
  pad_weight : bool;
}.

(** The network a patcher wraps: what [ICLight.apply] reads of it is
    [model_config.latent_format.scale_factor] and
    [diffusion_model.state_dict()]. *)
Record BaseModel := mkBaseModel {
  scale_factor : T;
  state_dict : gmap string Tensor;
}.

(** [ModelPatcher.model_options]: the forward-wrapper slot, and the rest. *)
Record ModelOptions := mkModelOptions {
  model_function_wrapper : option Wrapper;
  other_options : gmap string pyval;
}.

(** A model handle: a reference to the shared network, and its own overlay
    of patches and options. *)
Record ModelPatcher := mkModelPatcher {
  model : nat;
  patches : gmap string (list Patch);
  model_options : ModelOptions;
}.

(** The object store.  Networks and patchers are referred to by their
    position; [torch_device] and [unet_dtype] are what
    [comfy.model_management.get_torch_device()] and [unet_dtype()] answer;
    [cache_trims] counts the cache-release requests made to the allocator. *)
Record Heap := mkHeap {
  torch_device : Device;
  unet_dtype : DType;
  base_models : list BaseModel;
  patchers : list ModelPatcher;
  cache_trims : nat;
}.

Definition with_patchers (h : Heap) (ps : list ModelPatcher) : Heap :=
  mkHeap (torch_device h) (unet_dtype h) (base_models h) ps (cache_trims h).

Definition get_patcher (self : nat) : StateE Heap ModelPatcher :=
  λ h, (of_option DanglingReference (patchers h !! self), h).

Definition get_base_model (ref : nat) : StateE Heap BaseModel :=
  λ h, (of_option DanglingReference (base_models h !! ref), h).

Definition set_patcher (self : nat) (p : ModelPatcher) : StateE Heap unit :=
  st_modify (λ h, with_patchers h (<[self := p]> (patchers h))).

(** Modelled from the spec: [ModelPatcher.clone] of the host
    ([comfy.model_patcher], not part of the sources).  Section 3: cloning
    produces an independent overlay (patch list, wrapper slot) while the
    underlying weights are shared.  The clone is a new object that refers
    to the same network and starts from a copy of the overlay. *)
Definition clone (self : nat) : StateE Heap nat :=
  let* p := get_patcher self in
  λ h, (Ok (length (patchers h)), with_patchers h (patchers h ++ [p])).

(** Modelled from the spec: [ModelPatcher.set_model_unet_function_wrapper]
    of the host.  Section 6 (c): a single mutable forward-wrapper slot. *)
Definition set_model_unet_function_wrapper (self : nat) (f : Wrapper) : StateE Heap unit :=
  let* p := get_patcher self in
  set_patcher self
    (mkModelPatcher (model p) (patches p)
       (mkModelOptions (Some f) (other_options (model_options p)))).

Definition append_patch (cur : option (list Patch)) (new : option Patch)
    : option (list Patch) :=
  match new with
  | Some p => Some (default [] cur ++ [p])
  | None => cur
  end.

(** Modelled from the spec: [ModelPatcher.add_patches] of the host.
    Sections 3 and 6 (b): an append-only registry of named patches, keyed by
    qualified parameter name; nothing is validated or applied at
    registration. *)
Definition add_patches (self : nat) (new : gmap string Patch) : StateE Heap unit :=
  let* p := get_patcher self in
  set_patcher self
    (mkModelPatcher (model p) (merge append_patch (patches p) new)
       (model_options p)).

(** [torch.cuda.empty_cache()] and
    [comfy.model_management.soft_empty_cache()]: advisory requests. *)
Definition empty_cache : StateE Heap unit :=
  st_modify (λ h, mkHeap (torch_device h) (unet_dtype h) (base_models h)
                         (patchers h) (S (cache_trims h))).

(* ===================================================================== *)
(** ** The nodes *)
(* ===================================================================== *)

(** *** [ICLightApplyMaskGrey.apply_mask] *)
Definition apply_mask (image : Tensor) (alpha : pyval) : result Tensor :=
  match alpha with
  | PTensor alpha =>
      let alpha := if decide (ndim alpha = 3) then unsqueeze_last alpha else alpha in
      ia ← broadcast_op smul image alpha;
      broadcast_op sadd ia (mul_scalar (rsub_one alpha) s_half)
  | PObject _ => Raise TypeError
  end.

(** *** [ICLight.apply] and its closures *)

(** [apply_c_concat(params)], closed over [concat_conds] (here [conds]). *)
Definition apply_c_concat (conds : Tensor) (params : UnetParams) : result UnetParams :=
  let sample := input params in
  let moved := to_device (device sample) conds in
  b ← of_option IndexError (shape sample !! 0);
  b0 ← of_option IndexError (shape conds !! 0);
  n ← floordiv b b0;
  injected ← torch_cat (replicate n moved) 0;
  Ok (mkUnetParams (input params) (timestep params)
        (<["c_concat" := PTensor injected]> (c params))
        (cond_or_uncond params)).

(** [unet_dummy_apply(unet_apply, params)] *)
Definition unet_dummy_apply : Wrapper :=
  mkWrapper "params"
    (λ unet_apply params, unet_apply (input params) (timestep params) (c params)).

(** [wrapper_func(unet_apply, params)], closed over [concat_conds] and
    [existing_wrapper]:
    [return existing_wrapper(unet_apply, params=apply_c_concat(params))].
    The argument is evaluated first, then the keyword call is made. *)
Definition wrapper_func (conds : Tensor) (existing_wrapper : Wrapper) : Wrapper :=
  mkWrapper "params"
    (λ unet_apply params,
       match apply_c_concat conds params with
       | Ok params' => call_params_keyword existing_wrapper unet_apply params'
       | Raise e => Done (Raise e)
       end).

(** The slot after the conditioning stages of [cs] were installed on an
    empty slot, the last one of the list first. *)
Definition installed_chain (cs : list Tensor) : Wrapper :=
  foldr wrapper_func unet_dummy_apply cs.

(** [value.to(dtype=dtype, device=device)] *)
Definition to_dtype_device (dt : DType) (d : Device) (t : Tensor) : Tensor :=
  mkTensor d dt (shape t) (s_cast dt <$> data t).

(** The mapping handed to [add_patches] (lines 132-141). *)
Definition ic_patches (ic_model_state_dict : gmap string Tensor) : gmap string Patch :=
  kmap (String.append "diffusion_model.")
       (map_imap (λ key value,
                    Some (mkPatch "diff" value
                            (bool_decide (key = "input_blocks.0.0.weight"))))
                 ic_model_state_dict).

(** The patcher a successful [ICLight.apply] leaves as the clone of [p]:
    [p]'s network, [p]'s patches with the IC-Light patches registered, and
    the composed wrapper in the slot. *)
Definition relit (p : ModelPatcher) (conds : Tensor) (ic_state : gmap string Tensor)
    : ModelPatcher :=
  mkModelPatcher (model p)
    (merge append_patch (patches p) (ic_patches ic_state))
    (mkModelOptions
       (Some (wrapper_func conds
                (default unet_dummy_apply
                         (model_function_wrapper (model_options p)))))
       (other_options (model_options p))).

Definition ICLight_apply (model_ ic_model : nat) (c_concat : gmap string pyval)
    : StateE Heap nat :=
  if decide (c_concat !! "samples" = None) then st_raise KeyError
  else
    let* dev := st_gets torch_device in
    let* dt := st_gets unet_dtype in
    let* work_model := clone model_ in
    (* Apply scale factor. *)
    let* work_patcher := get_patcher work_model in
    let* base_model := get_base_model (model work_patcher) in
    let* samples := st_lift (of_option KeyError (c_concat !! "samples")
                             ≫= as_tensor) in
    let* conds := st_lift (concat_conds samples (scale_factor base_model)) in
    (* Compose on existing `model_function_wrapper`. *)
    let existing_wrapper :=
      default unet_dummy_apply (model_function_wrapper (model_options work_patcher)) in
    let* _ := set_model_unet_function_wrapper work_model
                (wrapper_func conds existing_wrapper) in
    let* ic_patcher := get_patcher ic_model in
    let* ic_base := get_base_model (model ic_patcher) in
    let ic_model_state_dict := to_dtype_device dt dev <$> state_dict ic_base in
    let* _ := add_patches work_model (ic_patches ic_model_state_dict) in
    (* release memory usage: clearing the temporary mapping leaves the
       tensors the patches refer to; then the two cache requests *)
    let* _ := empty_cache in
    let* _ := empty_cache in
    st_ret work_model.

End tensors.
Arguments Tensor T : clear implicits.
Arguments pyval T : clear implicits.
Arguments UnetParams T : clear implicits.
Arguments ForwardCall T : clear implicits.
Arguments prog T A : clear implicits.
Arguments Done {T A} r.
Arguments Forward {T A} call k.
Arguments UnetApply T : clear implicits.
Arguments Wrapper T : clear implicits.
Arguments Patch T : clear implicits.
Arguments BaseModel T : clear implicits.
Arguments ModelOptions T : clear implicits.
Arguments ModelPatcher T : clear implicits.
Arguments Heap T : clear implicits.

(* ===================================================================== *)
(** ** [VAEEncodeArgMax] *)
(* ===================================================================== *)

Section vae.
Context {St Pixels Latent : Type}.

(** [vae.first_stage_model]: an [AutoencoderKL] carries the sampling flag
    [regularization.sample]; any other encoder does not. *)
Inductive FirstStage :=
  | AutoencoderKL (regularization_sample : bool) (rest : St)
  | OtherFirstStage (rest : St).

(** [super().encode(vae, pixels)]: the standard encode of the host
    ([nodes.VAEEncode]).  It sees the encoder's flag and state, may change
    both, and returns or raises. *)
Context (VAEEncode_encode : Pixels → StateE (bool * St) Latent).

Definition get_sample : StateE (bool * St) bool := st_gets fst.

Definition set_sample (b : bool) : StateE (bool * St) unit :=
  st_modify (λ s, (b, s.2)).

Definition VAEEncodeArgMax_encode (vae : FirstStage) (pixels : Pixels)
    : result Latent * FirstStage :=
  match vae with
  | OtherFirstStage _ => (Raise AssertionError, vae)
  | AutoencoderKL flag rest =>
      let body :=
        let* original_sample_mode := get_sample in
        try_finally
          (let* _ := set_sample false in
           let* ret := VAEEncode_encode pixels in
           st_ret ret)
          (set_sample original_sample_mode) in
      let '(ret, (flag', rest')) := body (flag, rest) in
      (ret, AutoencoderKL flag' rest')
  end.

End vae.
Arguments FirstStage St : clear implicits.


(* ===================================================================== *)
(** ** Exact arithmetic as an instance *)
(* ===================================================================== *)

(** Rationals in canonical form: no rounding, whatever the precision. *)
#[global] Instance Qc_scalar : Scalar Qc := {|
  smul _ := Qcmult;
  sadd _ := Qcplus;
  ssub _ := Qcminus;
  s_cast _ x := x;
  s_zero := Q2Qc 0;
  s_one := Q2Qc 1;
  s_half := Q2Qc (1 # 2);
|}.

(* ===================================================================== *)
(** ** IEEE 754 arithmetic as an instance *)
(* ===================================================================== *)

(** The binary formats of the four dtypes: the number of significand bits
    (the implicit one included) and the exponent of the infinities. *)
Definition prec_of (d : DType) : Z :=
  match d with
  | Float16 => 11
  | BFloat16 => 8
  | Float32 => 24
  | Float64 => 53
  end.

Definition emax_of (d : DType) : Z :=
  match d with
  | Float16 => 16
  | BFloat16 => 128
  | Float32 => 128
  | Float64 => 1024
  end.

(** Conversion to the format of [d], rounding to nearest, ties to even. *)
Definition ieee_cast (d : DType) (x : spec_float) : spec_float :=
  match x with
  | S754_finite s m e => binary_round (prec_of d) (emax_of d) s m e
  | _ => x
  end.

(** A binary operation carried out in the format of [d]: both operands are
    converted to it, and the result is the correctly rounded one. *)
Definition ieee_op (op : Z → Z → spec_float → spec_float → spec_float)
    (d : DType) (x y : spec_float) : spec_float :=
  op (prec_of d) (emax_of d) (ieee_cast d x) (ieee_cast d y).

(** Floating-point numbers with signed zeros, infinities and NaN, as torch
    computes on them. *)
#[global] Instance ieee_scalar : Scalar spec_float := {|
  smul := ieee_op SFmul;
  sadd := ieee_op SFadd;
  ssub := ieee_op SFsub;
  s_cast := ieee_cast;
  s_zero := S754_zero false;
  s_one := S754_finite false 1 0;
  s_half := S754_finite false 1 (-1);
|}.

(** [x] is a number of the format of [d]. *)
Definition ieee_valid (d : DType) (x : spec_float) : Prop :=
  valid_binary (prec_of d) (emax_of d) x = true.

(** Neither an infinity nor NaN. *)
Definition ieee_finite (x : spec_float) : bool :=
  match x with
  | S754_zero _ | S754_finite _ _ _ => true
  | S754_infinity _ | S754_nan => false
  end.

Definition ieee_is_zero (x : spec_float) : Prop := ∃ s, x = S754_zero s.

(** [x + 0.0]: a negative zero becomes the positive one, anything else
    stays. *)
Definition flush_neg_zero (x : spec_float) : spec_float :=
  match x with
  | S754_zero true => S754_zero false
  | _ => x
  end.

(* ===================================================================== *)
(** ** Concrete inputs *)
(* ===================================================================== *)

Definition ex_q (n : nat) : Qc := Q2Qc (inject_Z (Z.of_nat n)).

(** The scale factor of the SD 1.5 latent format, 0.18215. *)
Definition ex_scale : Qc := Q2Qc (18215 # 100000).

(** A latent of shape (2, 4, 16, 16). *)
Definition ex_latent : Tensor Qc :=
  mkTensor Cpu Float32 [2; 4; 16; 16] (ex_q <$> seq 0 2048).

(** A small latent, of shape (2, 1, 1, 2), and the conditioning tensor
    made of it. *)
Definition ex_samples : Tensor Qc :=
  mkTensor Cpu Float32 [2; 1; 1; 2] (ex_q <$> [1; 2; 3; 4]).

Definition ex_conds : Tensor Qc :=
  mkTensor Cpu Float32 [1; 2; 1; 2]
    ((λ x, Qcmult x ex_scale) <$> (ex_q <$> [1; 2; 3; 4])).

(** A forward call with a live batch of 3 in half precision on a GPU. *)
Definition ex_params : UnetParams Qc :=
  mkUnetParams
    (mkTensor (Cuda 0) Float16 [3; 4; 1; 2] (ex_q <$> seq 0 24))
    (mkTensor (Cuda 0) Float16 [3] (ex_q <$> [999; 999; 999]))
    {[ "c_crossattn" := PObject "prompt" ]}
    (mkTensor Cpu Float32 [3] (ex_q <$> [0; 0; 1])).

(** What the injection step stores for [ex_params]: three copies of the
    conditioning tensor along the batch axis, on the GPU. *)
Definition ex_injected : Tensor Qc :=
  mkTensor (Cuda 0) Float32 [3; 2; 1; 2] (concat (replicate 3 (data ex_conds))).


(** A model that answers its input. *)
Definition ex_model_fn (call : ForwardCall Qc) : result (Tensor Qc) :=
  Ok (call_x call).

(** A store with a base network, an IC-Light network, and a handle on each;
    [ex_heap_twice] has [call_twice] in the base handle's wrapper slot. *)
Definition ex_base : BaseModel Qc :=
  mkBaseModel ex_scale
    {[ "input_blocks.0.0.weight" :=
         mkTensor Cpu Float32 [1; 4] (ex_q <$> [1; 1; 1; 1]) ]}.

Definition ex_ic_base : BaseModel Qc :=
  mkBaseModel ex_scale
    {[ "input_blocks.0.0.weight" := mkTensor Cpu Float32 [1; 2] (ex_q <$> [5; 6]);
       "out.2.bias" := mkTensor Cpu Float32 [1] (ex_q <$> [7]) ]}.

Definition ex_patcher (ref : nat) (slot : option (Wrapper Qc)) : ModelPatcher Qc :=
  mkModelPatcher ref ∅ (mkModelOptions slot ∅).

Definition ex_heap : Heap Qc :=
  mkHeap (Cuda 0) Float16 [ex_base; ex_ic_base]
    [ex_patcher 0 None; ex_patcher 1 None] 0.



Definition ex_c_concat : gmap string (pyval Qc) :=
  {[ "samples" := PTensor ex_samples ]}.

(** The store a call on [ex_heap] leaves. *)
Definition ex_heap_relit : Heap Qc :=
  mkHeap (Cuda 0) Float16 [ex_base; ex_ic_base]
    [ex_patcher 0 None; ex_patcher 1 None;
     relit (ex_patcher 0 None) ex_conds
       (to_dtype_device Float16 (Cuda 0) <$> state_dict ex_ic_base)] 2.

(** An image of shape (1, 1, 2, 3) and masks of shape (1, 1, 2). *)
Definition ex_image : Tensor Qc :=
  mkTensor Cpu Float32 [1; 1; 2; 3]
    (Q2Qc <$> [1 # 10; 2 # 10; 3 # 10; 7 # 10; 8 # 10; 9 # 10]).

Definition ex_alpha : Tensor Qc :=
  mkTensor Cpu Float32 [1; 1; 2] (Q2Qc <$> [1 # 4; 1 # 1]).

(** An encoder state for [VAEEncodeArgMax]: the standard encode counts its
    calls, leaves the sampling flag set, and answers whether it sampled, or
    fails on empty pixels. *)
Definition ex_VAEEncode_encode (pixels : list nat) : StateE (bool * nat) bool :=
  λ s, (if decide (pixels = []) then Raise RuntimeError else Ok s.1, (true, S s.2)).

(** One step of the error monad on a computed value. *)
Ltac ok_step :=
  match goal with
  | |- context [Ok ?x ≫= ?f] => change (Ok x ≫= f) with (f x); cbv beta
  end.

(* ===================================================================== *)
(** ** The rest of the module and [convert_weights.py] *)
(* ===================================================================== *)

(** A computation keeps a property of the state, on every exit. *)
Definition preserves {St A} (P : St → Prop) (m : StateE St A) : Prop :=
  ∀ s r s', P s → m s = (r, s') → P s'.

(** The store [h] with one more patcher, the clone, whatever its overlay,
    and some cache requests made. *)
Definition with_clone {T} (h h1 : Heap T) : Prop :=
  torch_device h1 = torch_device h ∧ unet_dtype h1 = unet_dtype h
  ∧ base_models h1 = base_models h
  ∧ ∃ q, patchers h1 = patchers h ++ [q].

(** [regularization.sample] of an encoder, when it has one. *)
Definition sampling_flag {St} (vae : FirstStage St) : option bool :=
  match vae with
  | AutoencoderKL flag _ => Some flag
  | OtherFirstStage _ => None
  end.

(** A mask shape that broadcasts to an image shape axis by axis: each size
    is the image's, or 1. *)
Definition broadcasts_to (mask_shape image_shape : list nat) : Prop :=
  Forall2 (λ a n, a = n ∨ a = 1) mask_shape image_shape.

(** The mask as [apply_mask] uses it: a mask of rank 3 gets a trailing
    axis of size 1. *)
Definition mask_of {T} (alpha : Tensor T) : Tensor T :=
  if decide (ndim alpha = 3) then unsqueeze_last alpha else alpha.

(** Two sizes that cannot be broadcast against each other. *)
Definition incompatible (n m : nat) : Prop := n ≠ m ∧ n ≠ 1 ∧ m ≠ 1.

(** *** The node registry (lines 153-163) *)

Inductive NodeClass :=
  | ICLight
  | ICLightApplyMaskGrey
  | VAEEncodeArgMax.

Definition NODE_CLASS_MAPPINGS : gmap string NodeClass :=
  {[ "ICLightApply" := ICLight;
     "ICLightApplyMaskGrey" := ICLightApplyMaskGrey;
     "VAEEncodeArgMax" := VAEEncodeArgMax ]}.

Definition NODE_DISPLAY_NAME_MAPPINGS : gmap string string :=
  {[ "ICLightApply" := "IC Light Apply";
     "ICLightApplyMaskGrey" := "IC Light Apply Mask Grey";
     "VAEEncodeArgMax" := "VAE Encode ArgMax" ]}.

(** *** [convert_weights.py] *)

(** [os.path.join(a, b)], as [posixpath] defines it. *)
Definition ends_with_sep (a : string) : bool :=
  match String.get (String.length a - 1) a with
  | Some ch => bool_decide (String ch "" = "/")
  | None => false
  end.

Definition path_join (a b : string) : string :=
  if String.prefix "/" b then b
  else if bool_decide (a = "") || ends_with_sep a then a +:+ b
  else a +:+ "/" +:+ b.

(** How the script ends: it wrote its file, or the checkpoint to read was
    not there. *)
Inductive ScriptOutcome :=
  | Saved
  | FileNotFoundError.

Section convert_weights.
Context {T : Type} `{!Scalar T}.

(** [comfy.diffusers_convert.convert_unet_state_dict], of the host. *)
Context (convert_unet_state_dict : gmap string (Tensor T) → gmap string (Tensor T)).

(** [t.half()] *)
Definition half (t : Tensor T) : Tensor T :=
  mkTensor (device t) Float16 (shape t) (s_cast Float16 <$> data t).

(** The script, run with [folder_paths.models_dir = models_dir] on the
    safetensors files [fs], each a mapping from names to tensors, named by
    the path the script uses for it. *)
Definition convert_weights (models_dir : string)
    (fs : gmap string (gmap string (Tensor T)))
    : ScriptOutcome * gmap string (gmap string (Tensor T)) :=
  let ic_light_root := path_join models_dir "ic_light" in
  let model_path := path_join ic_light_root "iclight_sd15_fbc.safetensors" in
  match fs !! model_path with
  | None => (FileNotFoundError, fs)
  | Some file =>
      (* [load_file] puts the tensors of the file on the CPU *)
      let loaded := to_device Cpu <$> file in
      let sd_dict := convert_unet_state_dict loaded in
      let sd_dict := half <$> sd_dict in
      (Saved, <["iclight_sd15_fbc_unet_ldm.safetensors" := sd_dict]> fs)
  end.

End convert_weights.

(** The checkpoint the script reads and the file it writes. *)
Definition model_path (models_dir : string) : string :=
  path_join (path_join models_dir "ic_light") "iclight_sd15_fbc.safetensors".

Definition output_path : string := "iclight_sd15_fbc_unet_ldm.safetensors".

(** *** More concrete inputs *)

(** A video-like latent of rank 5. *)
Definition ex_latent5 : Tensor Qc :=
  mkTensor Cpu Float32 [2; 3; 2; 1; 1] (ex_q <$> seq 0 12).

(** A batch of two images with one mask for both. *)
Definition ex_image2 : Tensor Qc :=
  mkTensor Cpu Float32 [2; 1; 2; 3]
    (Q2Qc <$> [1 # 10; 2 # 10; 3 # 10; 7 # 10; 8 # 10; 9 # 10;
               0 # 1; 1 # 1; 1 # 2; 1 # 4; 3 # 4; 1 # 5]).

Definition ex_alpha1 : Tensor Qc :=
  mkTensor Cpu Float32 [1; 1; 2] (Q2Qc <$> [1 # 4; 1 # 1]).

(** A mask of another width. *)
Definition ex_alpha_wide : Tensor Qc :=
  mkTensor Cpu Float32 [1; 1; 5] (Q2Qc <$> [0; 0; 0; 0; 0]%Q).

(** A second latent for a second application. *)
Definition ex_samples2 : Tensor Qc :=
  mkTensor Cpu Float32 [1; 2; 1; 2] (ex_q <$> [9; 8; 7; 6]).

Definition ex_conds2 : Tensor Qc :=
  mkTensor Cpu Float32 [1; 2; 1; 2]
    ((λ x, Qcmult x ex_scale) <$> (ex_q <$> [9; 8; 7; 6])).

Definition ex_c_concat2 : gmap string (pyval Qc) :=
  {[ "samples" := PTensor ex_samples2 ]}.

(** The store after a second application, on the handle the first one
    returned. *)
Definition ex_heap_relit2 : Heap Qc :=
  mkHeap (Cuda 0) Float16 [ex_base; ex_ic_base]
    [ex_patcher 0 None; ex_patcher 1 None;
     relit (ex_patcher 0 None) ex_conds
       (to_dtype_device Float16 (Cuda 0) <$> state_dict ex_ic_base);
     relit (relit (ex_patcher 0 None) ex_conds
              (to_dtype_device Float16 (Cuda 0) <$> state_dict ex_ic_base))
       ex_conds2
       (to_dtype_device Float16 (Cuda 0) <$> state_dict ex_ic_base)] 4.

(** A conditioning mapping whose [samples] is no tensor. *)
Definition ex_c_concat_bad : gmap string (pyval Qc) :=
  {[ "samples" := PObject "None" ]}.

(** A standard encode that fails when it finds sampling switched on. *)
Definition ex_VAEEncode_encode_strict (pixels : list nat) : StateE (bool * nat) bool :=
  λ s, if s.1 then (Raise RuntimeError, s) else ex_VAEEncode_encode pixels s.

(** A forward call with an empty live batch. *)
Definition ex_params_empty : UnetParams Qc :=
  mkUnetParams
    (mkTensor (Cuda 0) Float16 [0; 4; 1; 2] [])
    (mkTensor (Cuda 0) Float16 [0] [])
    ∅
    (mkTensor Cpu Float32 [0] []).

(** A conversion that renames one key, and a directory with the
    checkpoint. *)
Definition ex_convert (sd : gmap string (Tensor Qc)) : gmap string (Tensor Qc) :=
  kmap (String.append "ldm.") sd.

Definition ex_fs : gmap string (gmap string (Tensor Qc)) :=
  {[ "models/ic_light/iclight_sd15_fbc.safetensors" :=
       {[ "conv_in.weight" := mkTensor Cpu Float32 [1; 2] (ex_q <$> [5; 6]) ]} ]}.

(** Float32 images of shape (1, 1, 1, 3): one holding -0.0, 0.25 and 1.5,
    one holding +infinity, 0.25 and NaN; float32 masks of shape (1, 1, 1)
    holding 1.0 and 0.0. *)
Definition ex_image_f32 : Tensor spec_float :=
  mkTensor Cpu Float32 [1; 1; 1; 3]
    [S754_zero true; S754_finite false 8388608 (-25);
     S754_finite false 12582912 (-23)].

Definition ex_image_nonfinite : Tensor spec_float :=
  mkTensor Cpu Float32 [1; 1; 1; 3]
    [S754_infinity false; S754_finite false 8388608 (-25); S754_nan].

Definition ex_alpha_ones : Tensor spec_float :=
  mkTensor Cpu Float32 [1; 1; 1] [S754_finite false 8388608 (-23)].

Definition ex_alpha_zeros : Tensor spec_float :=
  mkTensor Cpu Float32 [1; 1; 1] [S754_zero false].

(* ===================================================================== *)
(** ** Lists, shapes and offsets *)
(* ===================================================================== *)

Lemma chunks_length {A} n k (l : list A) : length (chunks n k l) = k.
Proof. revert l. induction k as [|k IH]; intros l; simpl; [done|]. by rewrite IH. Qed.

Lemma chunks_concat {A} n k (l : list A) :
  length l = k * n → concat (chunks n k l) = l.
Proof.
  revert l. induction k as [|k IH]; intros l Hl; simpl in *.
  - by destruct l.
  - rewrite IH; [apply take_drop|]. rewrite length_drop. lia.
Qed.

Lemma chunks_Forall_length {A} n k (l : list A) :
  length l = k * n → Forall (λ ch, length ch = n) (chunks n k l).
Proof.
  revert l. induction k as [|k IH]; intros l Hl; simpl in *; constructor.
  - rewrite length_take. lia.
  - apply IH. rewrite length_drop. lia.
Qed.

Lemma chunks_replicate {A} n k (d : list A) :
  length d = n → chunks n k (concat (replicate k d)) = replicate k d.
Proof.
  intros Hd. induction k as [|k IH]; simpl; [done|].
  rewrite take_app_length', drop_app_length' by done. by rewrite IH.
Qed.

Lemma numel_app s1 s2 : numel (s1 ++ s2) = numel s1 * numel s2.
Proof. induction s1 as [|a s1 IH]; simpl; [lia|]. rewrite IH. lia. Qed.

Lemma numel_split dim sh :
  dim < length sh →
  numel sh = numel (take dim sh) * (nth dim sh 0 * numel (drop (S dim) sh)).
Proof.
  revert dim. induction sh as [|a sh IH]; intros dim Hd; simpl in *; [lia|].
  destruct dim as [|dim]; simpl; [rewrite drop_0; lia|].
  rewrite (IH dim) at 1 by lia. lia.
Qed.

Lemma floordiv_1 n : floordiv n 1 = Ok n.
Proof. unfold floordiv. case_decide; [done|]. by rewrite Nat.div_1_r. Qed.

Lemma promote_types_idemp dt : promote_types dt dt = dt.
Proof. by destruct dt. Qed.

Lemma sum_list_const {A} (f : A → nat) k (l : list A) :
  Forall (λ x, f x = k) l → sum_list (f <$> l) = length l * k.
Proof. induction 1 as [|x l Hx _ IH]; csimpl; [done|]. rewrite IH, Hx. lia. Qed.

Lemma foldr_promote_const {A} (f : A → DType) dt (l : list A) :
  Forall (λ x, f x = dt) l → foldr promote_types dt (f <$> l) = dt.
Proof.
  induction 1 as [|x l Hx _ IH]; csimpl; [done|].
  rewrite IH, Hx. apply promote_types_idemp.
Qed.

(* ===================================================================== *)
(** ** [torch.cat] on operands of one shape *)
(* ===================================================================== *)

Section cat.
Context {T : Type} `{!Scalar T}.

Lemma uniform_compatible sh dev dt dim (t0 : Tensor T) ts :
  shape t0 = sh → device t0 = dev →
  uniform sh dev dt ts → forallb (cat_compatible dim t0) ts = true.
Proof.
  intros Hs Hd. induction 1 as [|t ts (?&?&?) _ IH]; simpl; [done|].
  rewrite IH, andb_true_r. unfold cat_compatible.
  apply bool_decide_eq_true. by rewrite Hs, Hd; repeat split; congruence.
Qed.

Lemma cat_data_outer1 sh dev dt dim (ts : list (Tensor T)) :
  uniform sh dev dt ts → Forall wf ts →
  dim < length sh → numel (take dim sh) = 1 →
  (ts ≫= λ t, take (nth dim (shape t) 0 * numel (drop (S dim) sh))
                (drop (0 * (nth dim (shape t) 0 * numel (drop (S dim) sh))) (data t)))
  = concat (data <$> ts).
Proof.
  intros Hu Hwf Hdim Hout. induction ts as [|t l IH]; [done|].
  apply Forall_cons in Hu as [(Ht & _ & _) Hu], Hwf as [Hw Hwf].
  rewrite bind_cons, fmap_cons, concat_cons, IH by done. f_equal.
  simpl. rewrite drop_0, take_ge; [done|].
  red in Hw. rewrite Hw, Ht, (numel_split dim sh), Hout by done. lia.
Qed.

Lemma torch_cat_unfold sh dev dt dim (t0 : Tensor T) ts :
  uniform sh dev dt (t0 :: ts) → dim < length sh →
  torch_cat (t0 :: ts) dim
  = Ok (mkTensor dev dt (<[dim := length (t0 :: ts) * nth dim sh 0]> sh)
          (i ← seq 0 (numel (take dim sh)); t ← t0 :: ts;
           take (nth dim (shape t) 0 * numel (drop (S dim) sh))
             (drop (i * (nth dim (shape t) 0 * numel (drop (S dim) sh))) (data t)))).
Proof.
  intros Hu Hdim. pose proof Hu as Hu'.
  apply Forall_cons in Hu' as [(Hs & Hd & Ht) _].
  unfold torch_cat. rewrite Hs, bool_decide_eq_true_2 by done.
  rewrite (uniform_compatible sh dev dt) by done.
  rewrite Hd. do 2 f_equal.
  - rewrite Ht. apply (foldr_promote_const dtype).
    eapply Forall_impl; [exact Hu|]. by intros ? (?&?&?).
  - f_equal. apply (sum_list_const (λ t, nth dim (shape t) 0)).
    eapply Forall_impl; [exact Hu|]. by intros ? (->&?&?).
Qed.

(** Concatenating uniform operands succeeds and multiplies the size along
    [dim] by their number. *)
Lemma torch_cat_uniform sh dev dt dim (t0 : Tensor T) ts :
  uniform sh dev dt (t0 :: ts) → dim < length sh →
  ∃ d, torch_cat (t0 :: ts) dim
       = Ok (mkTensor dev dt (<[dim := length (t0 :: ts) * nth dim sh 0]> sh) d).
Proof. intros Hu Hdim. eexists. by apply torch_cat_unfold. Qed.

(** When nothing lies outside the axis of concatenation, the elements of
    the result are those of the operands, one operand after the other. *)
Lemma torch_cat_outer1 sh dev dt dim (t0 : Tensor T) ts :
  uniform sh dev dt (t0 :: ts) → Forall wf (t0 :: ts) →
  dim < length sh → numel (take dim sh) = 1 →
  torch_cat (t0 :: ts) dim
  = Ok (mkTensor dev dt (<[dim := length (t0 :: ts) * nth dim sh 0]> sh)
          (concat (data <$> t0 :: ts))).
Proof.
  intros Hu Hwf Hdim Hout.
  rewrite (torch_cat_unfold sh dev dt) by done. do 2 f_equal.
  rewrite Hout. change (seq 0 1) with [0]. rewrite bind_singleton.
  by apply (cat_data_outer1 sh dev dt).
Qed.

End cat.

(* ===================================================================== *)
(** ** The conditioning tensor *)
(* ===================================================================== *)

Section conditioning.
Context {T : Type} `{!Scalar T}.
Implicit Types (t samples conds : Tensor T) (params : UnetParams T).

Lemma in_range_4 n0 n1 n2 n3 i0 i1 i2 i3 :
  i0 < n0 → i1 < n1 → i2 < n2 → i3 < n3 →
  in_range [n0; n1; n2; n3] [i0; i1; i2; i3] = true.
Proof. intros. simpl. by rewrite !bool_decide_eq_true_2 by done. Qed.

(** The slices of a tensor, each with a leading axis of size 1, are uniform
    and well formed. *)
Lemma slices_uniform samples b rest :
  shape samples = b :: rest → wf samples →
  ∃ cs, unbind samples = Ok cs
    ∧ length cs = b
    ∧ uniform (1 :: rest) (device samples) (dtype samples) (index_none <$> cs)
    ∧ Forall wf (index_none <$> cs)
    ∧ concat (data <$> (index_none <$> cs)) = data samples.
Proof.
  intros Hs Hwf. unfold unbind. rewrite Hs. eexists; split; [done|].
  red in Hwf. rewrite Hs in Hwf. simpl in Hwf.
  pose proof (chunks_Forall_length (numel rest) b (data samples) Hwf) as Hch.
  split_and!.
  - by rewrite length_fmap, chunks_length.
  - unfold uniform. rewrite !Forall_fmap. by apply Forall_true.
  - rewrite !Forall_fmap. eapply Forall_impl; [exact Hch|].
    intros ch Hl. unfold wf. simpl. rewrite Hl. lia.
  - rewrite <-!list_fmap_compose.
    transitivity (concat (id <$> chunks (numel rest) b (data samples))).
    { f_equal. }
    rewrite list_fmap_id. by apply chunks_concat.
Qed.

(** Without any assumption on the storage: the shape, device and dtype of
    the slices. *)
Lemma slices_uniform_shape samples b rest :
  shape samples = b :: rest →
  ∃ cs, unbind samples = Ok cs
    ∧ length cs = b
    ∧ uniform (1 :: rest) (device samples) (dtype samples) (index_none <$> cs).
Proof.
  intros Hs. unfold unbind. rewrite Hs. eexists; split; [done|]. split.
  - by rewrite length_fmap, chunks_length.
  - unfold uniform. rewrite !Forall_fmap. by apply Forall_true.
Qed.

(** C2.  Scale law: for a latent of shape (B0, C, H, W) with at least one
    batch entry and a scale factor [s], the conditioning tensor is computed,
    has shape (1, C*B0, H, W), and holds the latent's elements multiplied by
    [s], batch entry after batch entry along the channel axis: channel [ch]
    of entry [b] is channel [b*C + ch] of the result. *)
Theorem concat_conds_scale_law samples (s : T) B0 C H W :
  0 < B0 → wf samples → shape samples = [B0; C; H; W] →
  ∃ conds, concat_conds samples s = Ok conds
    ∧ shape conds = [1; C * B0; H; W]
    ∧ data conds = (λ x, smul (dtype samples) x s) <$> data samples
    ∧ ∀ b ch h w, b < B0 → ch < C → h < H → w < W →
        get conds [0; b * C + ch; h; w]
        = (λ x, smul (dtype samples) x s) <$> get samples [b; ch; h; w].
Proof.
  intros HB Hwf Hs. unfold concat_conds.
  destruct (slices_uniform (mul_scalar samples s) B0 [C; H; W])
    as (cs & -> & Hlen & Hu & Hw & Hdata); [done| |].
  { unfold wf in *. simpl. by rewrite length_fmap. }
  change (Ok cs ≫= _) with (torch_cat (index_none <$> cs) 1).
  destruct (index_none <$> cs) as [|t0 ts] eqn:Hcs.
  { apply (f_equal length) in Hcs. rewrite length_fmap in Hcs. simpl in Hcs. lia. }
  rewrite (torch_cat_outer1 _ _ _ _ _ _ Hu Hw); [|simpl; lia|simpl; lia].
  assert (length (t0 :: ts) = B0) as Hl.
  { rewrite <-Hcs. by rewrite length_fmap. }
  replace (<[1:=length (t0 :: ts) * nth 1 [1; C; H; W] 0]> [1; C; H; W])
    with [1; C * B0; H; W] by (simpl in *; do 2 f_equal; lia).
  eexists; split; [done|]. simpl shape. simpl data.
  split_and!; [done..|].
  intros b ch h w Hb Hch Hh Hww. unfold get. simpl shape. rewrite Hs.
  assert (b * C + ch < C * B0).
  { apply Nat.lt_le_trans with ((b + 1) * C); [lia|].
    rewrite (Nat.mul_comm C B0). apply Nat.mul_le_mono_r. lia. }
  rewrite !in_range_4 by lia.
  rewrite Hdata. simpl data. rewrite list_lookup_fmap. do 2 f_equal.
  simpl. lia.
Qed.

(** What a computed conditioning tensor tells about the latent: the latent
    has a non-empty batch axis and a channel axis, and the result has batch
    size 1, on the latent's device and in the latent's dtype. *)
Lemma concat_conds_inv samples (s : T) conds :
  concat_conds samples s = Ok conds →
  ∃ B0 C rest, shape samples = B0 :: C :: rest ∧ 0 < B0
    ∧ shape conds = 1 :: B0 * C :: rest
    ∧ device conds = device samples ∧ dtype conds = dtype samples.
Proof.
  unfold concat_conds. intros Hc.
  destruct (shape samples) as [|B0 sh] eqn:Hs.
  { unfold unbind in Hc. simpl in Hc. by rewrite Hs in Hc. }
  destruct (slices_uniform_shape (mul_scalar samples s) B0 sh)
    as (cs & Hcs & Hlen & Hu); [done|].
  rewrite Hcs in Hc. change (Ok cs ≫= _) with (torch_cat (index_none <$> cs) 1) in Hc.
  destruct (index_none <$> cs) as [|t0 ts] eqn:Hl; [done|].
  assert (length (t0 :: ts) = B0) as Hn.
  { rewrite <-Hl. by rewrite length_fmap. }
  destruct sh as [|C rest].
  { exfalso. apply Forall_cons in Hu as [(Hs0 & _) _].
    unfold torch_cat in Hc. rewrite Hs0 in Hc. by simpl in Hc. }
  rewrite (torch_cat_unfold _ _ _ _ _ _ Hu) in Hc by (simpl; lia).
  injection Hc as <-. exists B0, C, rest. simpl in *. split_and!; [done|lia|..|done|done].
  do 2 f_equal. lia.
Qed.

(** The injection step on a conditioning tensor of batch size 1: it succeeds
    on every non-empty live batch and stores a tensor of the live batch
    size, on the live input's device and in the conditioning tensor's
    dtype; the rest of the call parameters is left as it was. *)
Lemma apply_c_concat_unfold conds params B rest crest :
  shape conds = 1 :: crest → shape (input params) = B :: rest → 0 < B →
  ∃ d, apply_c_concat conds params
       = Ok (mkUnetParams (input params) (timestep params)
               (<["c_concat" :=
                    PTensor (mkTensor (device (input params)) (dtype conds)
                               (B :: crest) d)]> (c params))
               (cond_or_uncond params))
     ∧ (wf conds → d = concat (replicate B (data conds))).
Proof.
  intros Hc Hi HB. unfold apply_c_concat. rewrite Hc, Hi.
  cbn -[Nat.div torch_cat replicate]. rewrite floordiv_1.
  cbn -[torch_cat replicate].
  destruct B as [|B]; [lia|]. simpl replicate.
  set (moved := to_device (device (input params)) conds).
  assert (uniform (1 :: crest) (device (input params)) (dtype conds)
            (moved :: replicate B moved)) as Hu.
  { apply (Forall_replicate _ (S B)). by rewrite <-Hc. }
  rewrite (torch_cat_unfold _ _ _ _ _ _ Hu) by (simpl; lia).
  simpl. rewrite length_replicate, Nat.mul_1_r. eexists; split; [done|].
  intros Hwf.
  pose proof (torch_cat_outer1 _ _ _ 0 _ _ Hu) as Hcat.
  rewrite (torch_cat_unfold _ _ _ _ _ _ Hu) in Hcat by (simpl; lia).
  simpl in Hcat. specialize (Hcat ltac:(by apply (Forall_replicate _ (S B)))
                                  ltac:(lia) eq_refl).
  injection Hcat as ->. by rewrite fmap_replicate.
Qed.

(** C3.  Broadcast law: for a conditioning tensor of batch size 1 and a
    forward call whose live input has (non-empty) batch size B, the tensor
    stored under [c_concat] has batch size B and each of its B slices along
    the batch axis is the single slice of the conditioning tensor, moved to
    the live input's device. *)
Theorem apply_c_concat_broadcast_law conds params B rest crest :
  wf conds → shape conds = 1 :: crest →
  shape (input params) = B :: rest → 0 < B →
  ∃ injected params' slice,
    apply_c_concat conds params = Ok params'
    ∧ c params' !! "c_concat" = Some (PTensor injected)
    ∧ shape injected = B :: crest
    ∧ unbind conds = Ok [slice]
    ∧ unbind injected
      = Ok (replicate B (to_device (device (input params)) slice)).
Proof.
  intros Hwf Hc Hi HB.
  destruct (apply_c_concat_unfold conds params B rest crest)
    as (d & -> & Hd); [done..|]. rewrite (Hd Hwf).
  red in Hwf. rewrite Hc in Hwf. simpl in Hwf.
  assert (length (data conds) = numel crest) as Hlen by lia.
  eexists _, _, _. split; [done|]. simpl c. rewrite lookup_insert_eq.
  split; [done|]. split; [done|].
  unfold unbind. rewrite Hc. simpl shape. simpl data. simpl chunks.
  rewrite take_ge by lia. split; [done|].
  rewrite chunks_replicate by done. by rewrite fmap_replicate.
Qed.

(** C6, as the code has it.  The tensor stored under [c_concat] is on the
    live input's device, the move being made at call time (the conditioning
    tensor itself stays on the latent's device); its dtype is the latent's,
    whatever the dtype of the live input. *)
Theorem apply_c_concat_device_dtype samples (s : T) conds params B rest :
  concat_conds samples s = Ok conds →
  shape (input params) = B :: rest → 0 < B →
  ∃ injected params',
    apply_c_concat conds params = Ok params'
    ∧ c params' !! "c_concat" = Some (PTensor injected)
    ∧ device injected = device (input params)
    ∧ dtype injected = dtype samples
    ∧ device conds = device samples
    ∧ dtype conds = dtype samples.
Proof.
  intros Hcc Hi HB.
  destruct (concat_conds_inv _ _ _ Hcc) as (B0 & C & crest & _ & _ & Hc & Hdev & Hdt).
  destruct (apply_c_concat_unfold conds params B rest _ Hc Hi HB) as (d & -> & _).
  eexists _, _. split; [done|]. simpl c. rewrite lookup_insert_eq.
  by split_and!.
Qed.

(** C10.  Whenever the conditioning tensor is computed, its batch size is
    exactly 1; so the floor division of any live batch size B by it is B,
    without remainder, and the tensor injected at a forward call with a
    (non-empty) live batch of size B has batch size exactly B. *)
Theorem concat_conds_batch_one samples (s : T) conds :
  concat_conds samples s = Ok conds →
  shape conds !! 0 = Some 1
  ∧ (∀ B, floordiv B 1 = Ok B ∧ B `mod` 1 = 0)
  ∧ ∀ params B rest, shape (input params) = B :: rest → 0 < B →
      ∃ injected params',
        apply_c_concat conds params = Ok params'
        ∧ c params' !! "c_concat" = Some (PTensor injected)
        ∧ shape injected !! 0 = Some B.
Proof.
  intros Hcc.
  destruct (concat_conds_inv _ _ _ Hcc) as (B0 & C & crest & _ & _ & Hc & _).
  split_and!.
  - by rewrite Hc.
  - intros B. by rewrite floordiv_1, Nat.mod_1_r.
  - intros params B rest Hi HB.
    destruct (apply_c_concat_unfold conds params B rest _ Hc Hi HB) as (d & -> & _).
    eexists _, _. split; [done|]. simpl c. by rewrite lookup_insert_eq.
Qed.

(** The empty batch is outside these laws: [torch.cat] refuses an empty
    list of operands. *)
Lemma apply_c_concat_empty_batch conds params rest crest :
  shape conds = 1 :: crest → shape (input params) = 0 :: rest →
  apply_c_concat conds params = Raise RuntimeError.
Proof. intros Hc Hi. unfold apply_c_concat. by rewrite Hc, Hi. Qed.

Lemma concat_conds_empty_batch samples (s : T) rest :
  shape samples = 0 :: rest → concat_conds samples s = Raise RuntimeError.
Proof. intros Hs. unfold concat_conds, unbind. simpl. by rewrite Hs. Qed.

End conditioning.

(* ===================================================================== *)
(** ** [ICLight.apply] on the store *)
(* ===================================================================== *)

Section apply.
Context {T : Type} `{!Scalar T}.
Implicit Types (h : Heap T) (p : ModelPatcher T) (cc : gmap string (pyval T)).

(** The keyword call of line 123 binds exactly the wrappers whose second
    parameter is named [params]. *)
Lemma call_params_keyword_bound (wrapper : Wrapper T) unet_apply params :
  params_name wrapper = "params" →
  call_params_keyword wrapper unet_apply params = wrapper unet_apply params.
Proof. unfold call_params_keyword. intros ->. by rewrite decide_True. Qed.


Lemma wrapper_func_call (conds : Tensor T) existing unet_apply params :
  wrapper_func conds existing unet_apply params
  = match apply_c_concat conds params with
    | Ok params' => call_params_keyword existing unet_apply params'
    | Raise e => Done (Raise e)
    end.
Proof. done. Qed.

Lemma installed_chain_cons (conds : Tensor T) cs :
  installed_chain (conds :: cs) = wrapper_func conds (installed_chain cs).
Proof. done. Qed.

Lemma installed_chain_params_name (cs : list (Tensor T)) :
  params_name (installed_chain cs) = "params".
Proof. by destruct cs. Qed.

Lemma st_bind_Ok {St A B} (m : StateE St A) (f : A → StateE St B) s b s' :
  st_bind m f s = (Ok b, s') →
  ∃ a s1, m s = (Ok a, s1) ∧ f a s1 = (Ok b, s').
Proof.
  unfold st_bind. destruct (m s) as [[a|e] s1]; [|done]. intros. by exists a, s1.
Qed.

Lemma st_gets_Ok {St A} (f : St → A) s a s' :
  st_gets f s = (Ok a, s') → a = f s ∧ s' = s.
Proof. unfold st_gets. by intros [= <- <-]. Qed.

Lemma st_lift_Ok {St A} (r : result A) (s : St) a s' :
  st_lift r s = (Ok a, s') → r = Ok a ∧ s' = s.
Proof. unfold st_lift. by intros [= -> <-]. Qed.

Lemma of_option_Ok {A} e (o : option A) a : of_option e o = Ok a → o = Some a.
Proof. destruct o; simpl; congruence. Qed.

Lemma get_patcher_Ok l h p h' :
  get_patcher l h = (Ok p, h') → patchers h !! l = Some p ∧ h' = h.
Proof. unfold get_patcher. intros [= Hp <-]. by apply of_option_Ok in Hp. Qed.

Lemma get_base_model_Ok l h bm h' :
  get_base_model l h = (Ok bm, h') → base_models h !! l = Some bm ∧ h' = h.
Proof. unfold get_base_model. intros [= Hp <-]. by apply of_option_Ok in Hp. Qed.

Lemma clone_Ok m h wm h' :
  clone m h = (Ok wm, h') →
  ∃ p, patchers h !! m = Some p ∧ wm = length (patchers h)
       ∧ h' = with_patchers h (patchers h ++ [p]).
Proof.
  unfold clone. intros (p & h1 & Hp & Hc)%st_bind_Ok.
  apply get_patcher_Ok in Hp as [Hp ->]. injection Hc as <- <-. by exists p.
Qed.

Lemma set_patcher_Ok l p h u h' :
  set_patcher l p h = (Ok u, h') → h' = with_patchers h (<[l := p]> (patchers h)).
Proof. unfold set_patcher, st_modify. by intros [= <-]. Qed.

Lemma set_model_unet_function_wrapper_Ok l f h u h' :
  set_model_unet_function_wrapper l f h = (Ok u, h') →
  ∃ p, patchers h !! l = Some p
       ∧ h' = with_patchers h
                (<[l := mkModelPatcher (model p) (patches p)
                          (mkModelOptions (Some f) (other_options (model_options p)))]>
                   (patchers h)).
Proof.
  unfold set_model_unet_function_wrapper. intros (p & h1 & Hp & Hc)%st_bind_Ok.
  apply get_patcher_Ok in Hp as [Hp ->]. apply set_patcher_Ok in Hc. by exists p.
Qed.

Lemma add_patches_Ok l new h u h' :
  add_patches l new h = (Ok u, h') →
  ∃ p, patchers h !! l = Some p
       ∧ h' = with_patchers h
                (<[l := mkModelPatcher (model p)
                          (merge append_patch (patches p) new) (model_options p)]>
                   (patchers h)).
Proof.
  unfold add_patches. intros (p & h1 & Hp & Hc)%st_bind_Ok.
  apply get_patcher_Ok in Hp as [Hp ->]. apply set_patcher_Ok in Hc. by exists p.
Qed.

Lemma snoc_lookup_length {A} (l : list A) x : (l ++ [x]) !! length l = Some x.
Proof. by apply list_lookup_middle. Qed.

Lemma snoc_insert_length {A} (l : list A) x y : <[length l := y]> (l ++ [x]) = l ++ [y].
Proof. rewrite insert_app_r_alt, Nat.sub_diag by done. done. Qed.

(** A successful call, read backwards: what it found in the store and what
    it left there. *)
Lemma ICLight_apply_Ok m a cc h wm h' :
  ICLight_apply m a cc h = (Ok wm, h') →
  ∃ p samples bm conds icp icb,
    patchers h !! m = Some p
    ∧ cc !! "samples" = Some (PTensor samples)
    ∧ base_models h !! model p = Some bm
    ∧ concat_conds samples (scale_factor bm) = Ok conds
    ∧ (a < length (patchers h) → patchers h !! a = Some icp)
    ∧ base_models h !! model icp = Some icb
    ∧ wm = length (patchers h)
    ∧ h' = mkHeap (torch_device h) (unet_dtype h) (base_models h)
             (patchers h ++
                [relit p conds
                   (to_dtype_device (unet_dtype h) (torch_device h)
                      <$> state_dict icb)])
             (S (S (cache_trims h))).
Proof.
  unfold ICLight_apply. case_decide as Hs; [done|]. intros Happ.
  apply st_bind_Ok in Happ as (dev & h1 & [-> ->]%st_gets_Ok & Happ).
  apply st_bind_Ok in Happ as (dt & h1 & [-> ->]%st_gets_Ok & Happ).
  apply st_bind_Ok in Happ as (w & h1 & (p & Hp & -> & ->)%clone_Ok & Happ).
  apply st_bind_Ok in Happ as (wp & h2 & [Hwp ->]%get_patcher_Ok & Happ).
  simpl in Hwp. rewrite snoc_lookup_length in Hwp. injection Hwp as <-.
  apply st_bind_Ok in Happ as (bm & h2 & [Hbm ->]%get_base_model_Ok & Happ).
  apply st_bind_Ok in Happ as (samples & h2 & [Hsam ->]%st_lift_Ok & Happ).
  apply st_bind_Ok in Happ as (conds & h2 & [Hcc ->]%st_lift_Ok & Happ).
  apply st_bind_Ok in Happ
    as ([] & h2 & (p' & Hp' & ->)%set_model_unet_function_wrapper_Ok & Happ).
  simpl in Hp'. rewrite snoc_lookup_length in Hp'. injection Hp' as <-.
  simpl patchers in Happ. rewrite snoc_insert_length in Happ.
  apply st_bind_Ok in Happ as (icp & h2 & [Hicp ->]%get_patcher_Ok & Happ).
  apply st_bind_Ok in Happ as (icb & h2 & [Hicb ->]%get_base_model_Ok & Happ).
  apply st_bind_Ok in Happ as ([] & h2 & (p' & Hp' & ->)%add_patches_Ok & Happ).
  simpl in Hp'. rewrite snoc_lookup_length in Hp'. injection Hp' as <-.
  simpl patchers in Happ. rewrite snoc_insert_length in Happ.
  injection Happ as <- <-.
  destruct (cc !! "samples") as [[samples'|]|] eqn:Hlk; simpl in Hsam; try done.
  injection Hsam as ->.
  exists p, samples, bm, conds, icp, icb. split_and!; try done.
  intros Ha. simpl in Hicp. by rewrite lookup_app_l in Hicp.
Qed.

Lemma st_bind_run {St A B} (m : StateE St A) (f : A → StateE St B) s a s1 :
  m s = (Ok a, s1) → st_bind m f s = f a s1.
Proof. unfold st_bind. by intros ->. Qed.

Lemma get_patcher_run l h p :
  patchers h !! l = Some p → get_patcher l h = (Ok p, h).
Proof. unfold get_patcher. by intros ->. Qed.

Lemma get_base_model_run l h bm :
  base_models h !! l = Some bm → get_base_model l h = (Ok bm, h).
Proof. unfold get_base_model. by intros ->. Qed.

Lemma clone_run m h p :
  patchers h !! m = Some p →
  clone m h = (Ok (length (patchers h)), with_patchers h (patchers h ++ [p])).
Proof.
  intros Hp. unfold clone. by erewrite st_bind_run by by apply get_patcher_run.
Qed.

Lemma set_model_unet_function_wrapper_run l f h p :
  patchers h !! l = Some p →
  set_model_unet_function_wrapper l f h
  = (Ok (), with_patchers h
              (<[l := mkModelPatcher (model p) (patches p)
                        (mkModelOptions (Some f) (other_options (model_options p)))]>
                 (patchers h))).
Proof.
  intros Hp. unfold set_model_unet_function_wrapper.
  by erewrite st_bind_run by by apply get_patcher_run.
Qed.

Lemma add_patches_run l new h p :
  patchers h !! l = Some p →
  add_patches l new h
  = (Ok (), with_patchers h
              (<[l := mkModelPatcher (model p)
                        (merge append_patch (patches p) new) (model_options p)]>
                 (patchers h))).
Proof.
  intros Hp. unfold add_patches.
  by erewrite st_bind_run by by apply get_patcher_run.
Qed.

(** A call succeeds on a store that holds the two handles and their
    networks, when the latent is a tensor of which the conditioning tensor
    can be computed. *)
Lemma ICLight_apply_run m a cc h p samples bm conds icp icb :
  patchers h !! m = Some p →
  cc !! "samples" = Some (PTensor samples) →
  base_models h !! model p = Some bm →
  concat_conds samples (scale_factor bm) = Ok conds →
  patchers h !! a = Some icp →
  base_models h !! model icp = Some icb →
  ICLight_apply m a cc h
  = (Ok (length (patchers h)),
     mkHeap (torch_device h) (unet_dtype h) (base_models h)
       (patchers h ++
          [relit p conds
             (to_dtype_device (unet_dtype h) (torch_device h) <$> state_dict icb)])
       (S (S (cache_trims h)))).
Proof.
  intros Hp Hsam Hbm Hcc Hicp Hicb. unfold ICLight_apply.
  rewrite decide_False by congruence.
  erewrite (st_bind_run (st_gets _)) by reflexivity.
  erewrite (st_bind_run (st_gets _)) by reflexivity.
  erewrite (st_bind_run (clone _)) by by apply clone_run.
  erewrite (st_bind_run (get_patcher _)).
  2: { apply get_patcher_run. simpl. apply snoc_lookup_length. }
  erewrite (st_bind_run (get_base_model _)) by by apply get_base_model_run.
  erewrite (st_bind_run (st_lift _)).
  2: { unfold st_lift. by rewrite Hsam. }
  erewrite (st_bind_run (st_lift _)).
  2: { unfold st_lift. by rewrite Hcc. }
  erewrite (st_bind_run (set_model_unet_function_wrapper _ _)).
  2: { apply set_model_unet_function_wrapper_run. simpl. apply snoc_lookup_length. }
  simpl patchers. rewrite snoc_insert_length.
  erewrite (st_bind_run (get_patcher a)).
  2: { apply get_patcher_run. simpl. by apply lookup_app_l_Some. }
  erewrite (st_bind_run (get_base_model _)) by by apply get_base_model_run.
  erewrite (st_bind_run (add_patches _ _)).
  2: { apply add_patches_run. simpl. apply snoc_lookup_length. }
  simpl patchers. rewrite snoc_insert_length.
  reflexivity.
Qed.

(** The mapping handed to [add_patches], key by key. *)
Lemma ic_patches_lookup (sd : gmap string (Tensor T)) key :
  ic_patches sd !! ("diffusion_model." +:+ key)
  = (λ value, mkPatch "diff" value (bool_decide (key = "input_blocks.0.0.weight")))
      <$> sd !! key.
Proof.
  unfold ic_patches. rewrite (lookup_kmap (String.append "diffusion_model.")).
  rewrite map_lookup_imap. by destruct (sd !! key).
Qed.

Lemma ic_patches_keys (sd : gmap string (Tensor T)) k :
  is_Some (ic_patches sd !! k) →
  ∃ key, k = "diffusion_model." +:+ key ∧ is_Some (sd !! key).
Proof.
  unfold ic_patches. intros [patch Hk].
  apply (lookup_kmap_Some (String.append "diffusion_model.")) in Hk
    as (key & -> & Hk).
  exists key. split; [done|]. rewrite map_lookup_imap in Hk.
  destruct (sd !! key); [by eexists|done].
Qed.

Lemma ic_patches_size (sd : gmap string (Tensor T)) :
  size (ic_patches sd) = size sd.
Proof.
  unfold ic_patches. induction sd as [|key value sd Hkey IH] using map_ind.
  - by rewrite map_imap_empty, kmap_empty, !map_size_empty.
  - erewrite map_imap_insert_Some by done.
    rewrite (kmap_insert (String.append "diffusion_model.")).
    rewrite !map_size_insert_None; [by rewrite IH|done|].
    rewrite (lookup_kmap (String.append "diffusion_model.")), map_lookup_imap.
    by rewrite Hkey.
Qed.

(** C4.  After a successful call on an auxiliary handle of the store, the
    clone's overlay is the base handle's overlay with one registered batch
    of patches.  The batch holds, for every parameter of the auxiliary
    network, one patch under the parameter's name prefixed with
    [diffusion_model.], and nothing else; every patch is of kind [diff] and
    carries the parameter's value (moved to the working device and dtype);
    [pad_weight] is set exactly for [input_blocks.0.0.weight]. *)
Theorem ICLight_apply_patch_set m a cc h wm h' :
  ICLight_apply m a cc h = (Ok wm, h') → a < length (patchers h) →
  ∃ p p' icp icb registered,
    patchers h !! m = Some p ∧ patchers h' !! wm = Some p'
    ∧ patchers h !! a = Some icp ∧ base_models h !! model icp = Some icb
    ∧ patches p' = merge append_patch (patches p) registered
    ∧ (∀ key,
         registered !! ("diffusion_model." +:+ key)
         = (λ value,
              mkPatch "diff"
                (to_dtype_device (unet_dtype h) (torch_device h) value)
                (bool_decide (key = "input_blocks.0.0.weight")))
             <$> state_dict icb !! key)
    ∧ (∀ k, is_Some (registered !! k) →
         ∃ key, k = "diffusion_model." +:+ key ∧ is_Some (state_dict icb !! key))
    ∧ size registered = size (state_dict icb).
Proof.
  intros (p & samples & bm & conds & icp & icb & Hp & _ & _ & _ & Hicp & Hicb
          & -> & ->)%ICLight_apply_Ok Ha.
  eexists p, _, icp, icb, _. simpl patchers.
  split; [done|]. split; [apply snoc_lookup_length|].
  split; [by apply Hicp|]. split; [done|]. split; [done|]. split_and!.
  - intros key. rewrite ic_patches_lookup, lookup_fmap.
    by destruct (state_dict icb !! key).
  - intros k (key & -> & Hk)%ic_patches_keys. exists key. split; [done|].
    by rewrite lookup_fmap, fmap_is_Some in Hk.
  - by rewrite ic_patches_size, map_size_fmap.
Qed.

(** C5.  A conditioning mapping without [samples] makes the call raise
    [KeyError] at once: the store is returned as it was, so no clone was
    made, no patch registered and no handle touched. *)
Theorem ICLight_apply_missing_samples m a cc h :
  cc !! "samples" = None → ICLight_apply m a cc h = (Raise KeyError, h).
Proof. intros Hs. unfold ICLight_apply. by rewrite decide_True. Qed.

(** For contrast: a [samples] entry that is no tensor fails after the clone
    was made. *)
Lemma ICLight_apply_bad_samples m a cc h p bm repr :
  patchers h !! m = Some p → base_models h !! model p = Some bm →
  cc !! "samples" = Some (PObject repr) →
  ICLight_apply m a cc h
  = (Raise TypeError, with_patchers h (patchers h ++ [p])).
Proof.
  intros Hp Hbm Hs. unfold ICLight_apply. rewrite decide_False by congruence.
  erewrite (st_bind_run (st_gets _)) by reflexivity.
  erewrite (st_bind_run (st_gets _)) by reflexivity.
  erewrite (st_bind_run (clone _)) by by apply clone_run.
  erewrite (st_bind_run (get_patcher _)).
  2: { apply get_patcher_run. simpl. apply snoc_lookup_length. }
  erewrite (st_bind_run (get_base_model _)) by by apply get_base_model_run.
  unfold st_bind, st_lift. by rewrite Hs.
Qed.

(** C7.  A successful call returns a new handle, a clone that refers to the
    base handle's network, and leaves the rest of the store as it was: the
    networks (the weight values), and every handle that existed before, the
    base handle with its patch overlay and wrapper slot and the auxiliary
    handle among them. *)
Theorem ICLight_apply_frame m a cc h wm h' :
  ICLight_apply m a cc h = (Ok wm, h') →
  base_models h' = base_models h
  ∧ (∀ l, l < length (patchers h) → patchers h' !! l = patchers h !! l)
  ∧ patchers h' !! m = patchers h !! m
  ∧ (a < length (patchers h) → patchers h' !! a = patchers h !! a)
  ∧ wm = length (patchers h) ∧ m < wm
  ∧ ∃ p p', patchers h !! m = Some p ∧ patchers h' !! wm = Some p'
            ∧ model p' = model p.
Proof.
  intros (p & samples & bm & conds & icp & icb & Hp & _ & _ & _ & _ & _
          & -> & ->)%ICLight_apply_Ok.
  pose proof (lookup_lt_Some _ _ _ Hp) as Hm. simpl.
  split_and!; try done.
  - intros l Hl. by apply lookup_app_l.
  - by apply lookup_app_l.
  - intros Ha. by apply lookup_app_l.
  - eexists p, _. split; [done|]. split; [apply snoc_lookup_length|done].
Qed.

Lemma apply_c_concat_Ok (conds : Tensor T) params params' :
  apply_c_concat conds params = Ok params' →
  ∃ injected,
    params' = mkUnetParams (input params) (timestep params)
                (<["c_concat" := PTensor injected]> (c params))
                (cond_or_uncond params).
Proof.
  unfold apply_c_concat. intros Hc.
  destruct (of_option _ (shape (input params) !! 0)); [|done].
  destruct (of_option _ (shape conds !! 0)); [|done]. simpl in Hc.
  destruct (floordiv _ _); [|done]. simpl in Hc.
  destruct (torch_cat _ _) as [injected|]; [|done]. simpl in Hc.
  injection Hc as <-. by exists injected.
Qed.

(** X6.  A chain of conditioning stages, all of batch size 1, on a non-empty
    live batch: every injection runs, the most recently installed first, and
    the native forward is invoked exactly once, with the call's input and
    timestep. *)
Lemma installed_chain_forward_once (cs : list (Tensor T)) model_fn params B rest :
  Forall (λ conds, ∃ crest, shape conds = 1 :: crest) cs →
  shape (input params) = B :: rest → 0 < B →
  ∃ call,
    run model_fn (installed_chain cs native_forward params) = (model_fn call, [call])
    ∧ call_x call = input params ∧ call_t call = timestep params.
Proof.
  intros Hcs. revert params.
  induction Hcs as [|conds cs [crest Hc] _ IH]; intros params Hi HB.
  - exists (mkForwardCall (input params) (timestep params) (c params)).
    simpl. split; [by destruct (model_fn _)|done].
  - destruct (apply_c_concat_unfold conds params B rest crest Hc Hi HB)
      as (d & Hinj & _).
    rewrite installed_chain_cons, wrapper_func_call, Hinj,
      call_params_keyword_bound by apply installed_chain_params_name.
    destruct (IH (mkUnetParams (input params) (timestep params)
                    (<["c_concat" :=
                         PTensor (mkTensor (device (input params)) (dtype conds)
                                    (B :: crest) d)]> (c params))
                    (cond_or_uncond params)))
      as (call & Hrun & Hx & Ht); [done..|].
    exists call. simpl in Hx, Ht. by split_and!.
Qed.


End apply.

(* ===================================================================== *)
(** ** [VAEEncodeArgMax.encode] *)
(* ===================================================================== *)

Section vae_encode.
Context {St Pixels Latent : Type}.
Context (VAEEncode_encode : Pixels → StateE (bool * St) Latent).

Lemma try_finally_set_sample {A} (body : StateE (bool * St) A) b s :
  try_finally body (set_sample b) s = ((body s).1, (b, (body s).2.2)).
Proof. unfold try_finally, set_sample, st_modify. by destruct (body s). Qed.

Lemma VAEEncodeArgMax_encode_unfold flag rest pixels :
  VAEEncodeArgMax_encode VAEEncode_encode (AutoencoderKL flag rest) pixels
  = ((VAEEncode_encode pixels (false, rest)).1,
     AutoencoderKL flag (VAEEncode_encode pixels (false, rest)).2.2).
Proof.
  unfold VAEEncodeArgMax_encode, get_sample.
  erewrite st_bind_run by reflexivity. simpl fst.
  rewrite try_finally_set_sample.
  unfold st_bind at 1. unfold set_sample, st_modify. simpl.
  unfold st_bind, st_ret. simpl.
  by destruct (VAEEncode_encode pixels (false, rest)) as [[ret|e] [flag' rest']].
Qed.

(** C8.  On an [AutoencoderKL] encoder the standard encode is run with the
    sampling flag set to false, and on both of its exits the flag is back
    at its original value afterwards, whatever the standard encode did to
    it: when the standard encode returns a latent, the call returns that
    latent; when it raises, the call raises the same exception. *)
Theorem VAEEncodeArgMax_encode_restores flag rest pixels :
  (∀ ret flag' rest',
     VAEEncode_encode pixels (false, rest) = (Ok ret, (flag', rest')) →
     VAEEncodeArgMax_encode VAEEncode_encode (AutoencoderKL flag rest) pixels
     = (Ok ret, AutoencoderKL flag rest'))
  ∧ (∀ e flag' rest',
       VAEEncode_encode pixels (false, rest) = (Raise e, (flag', rest')) →
       VAEEncodeArgMax_encode VAEEncode_encode (AutoencoderKL flag rest) pixels
       = (Raise e, AutoencoderKL flag rest')).
Proof.
  split; intros ??? Henc; by rewrite VAEEncodeArgMax_encode_unfold, Henc.
Qed.

(** Any other encoder is refused by the assertion, untouched. *)
Lemma VAEEncodeArgMax_encode_unsupported rest pixels :
  VAEEncodeArgMax_encode VAEEncode_encode (OtherFirstStage rest) pixels
  = (Raise AssertionError, OtherFirstStage rest).
Proof. done. Qed.

End vae_encode.

(* ===================================================================== *)
(** ** Multi-indices and broadcasting *)
(* ===================================================================== *)

Lemma indices_length sh : length (indices sh) = numel sh.
Proof.
  induction sh as [|n r IH]; [done|]. simpl.
  generalize 0. induction n as [|n IHn]; intros s; [done|].
  simpl seq. rewrite bind_cons, length_app, length_fmap, IH, IHn. simpl. lia.
Qed.

Lemma offset_lt sh idx : in_range sh idx = true → offset sh idx < numel sh.
Proof.
  revert idx. induction sh as [|n r IH]; intros [|i idx]; simpl; try done; [lia|].
  intros [Hi Hr%IH]%andb_true_iff. apply bool_decide_eq_true in Hi.
  apply Nat.lt_le_trans with (S i * numel r); [simpl; lia|].
  apply Nat.mul_le_mono_r. lia.
Qed.

(** Looking up in a list built block by block, all blocks of one length. *)
Lemma bind_seq_lookup {A} (f : nat → list A) m s n i o :
  (∀ j, length (f j) = m) → i < n → o < m →
  (seq s n ≫= f) !! (i * m + o) = f (s + i) !! o.
Proof.
  intros Hf. revert s i. induction n as [|n IH]; intros s i Hi Ho; [lia|].
  simpl seq. rewrite bind_cons. destruct i as [|i].
  - rewrite Nat.add_0_r. simpl. apply lookup_app_l. by rewrite Hf.
  - rewrite lookup_app_r by (rewrite Hf; simpl; nia).
    rewrite Hf. replace (S i * m + o - m) with (i * m + o) by (simpl; nia).
    rewrite IH by lia. by replace (S s + i) with (s + S i) by lia.
Qed.

Lemma indices_lookup sh idx :
  in_range sh idx = true → indices sh !! offset sh idx = Some idx.
Proof.
  revert idx. induction sh as [|n r IH]; intros [|i idx]; simpl; try done.
  intros [Hi Hr]%andb_true_iff. apply bool_decide_eq_true in Hi.
  rewrite (bind_seq_lookup _ (numel r)).
  - simpl. rewrite list_lookup_fmap, IH by done. done.
  - intros j. by rewrite length_fmap, indices_length.
  - done.
  - by apply offset_lt.
Qed.

Lemma indices_in_range sh idx : idx ∈ indices sh → in_range sh idx = true.
Proof.
  revert idx. induction sh as [|n r IH]; intros idx; simpl.
  - by intros ->%list_elem_of_singleton.
  - intros (i & (idx' & -> & Hidx)%list_elem_of_fmap & Hi)%list_elem_of_bind.
    apply elem_of_seq in Hi. simpl.
    rewrite bool_decide_eq_true_2 by lia. by apply IH.
Qed.

Lemma offset_surj sh k :
  k < numel sh → ∃ idx, in_range sh idx = true ∧ offset sh idx = k.
Proof.
  revert k. induction sh as [|n r IH]; simpl; intros k Hk.
  - exists []. split; [done|lia].
  - assert (numel r ≠ 0) as Hr by (intros Hz; rewrite Hz in Hk; lia).
    destruct (IH (k `mod` numel r)) as (idx & Hin & Hoff).
    { by apply Nat.mod_upper_bound. }
    exists (k `div` numel r :: idx). simpl. split.
    + rewrite Hin, andb_true_r. apply bool_decide_eq_true.
      apply Nat.Div0.div_lt_upper_bound. lia.
    + rewrite Hoff. pose proof (Nat.div_mod_eq k (numel r)). lia.
Qed.

(** Within range, an operand of the result's own shape is read at the
    result's index. *)
Lemma expand_index_id sh idx :
  in_range sh idx = true → expand_index sh idx = idx.
Proof.
  intros Hin. unfold expand_index.
  assert (length idx = length sh) as ->.
  { revert idx Hin. induction sh as [|n r IH]; intros [|i idx]; simpl; try done.
    intros [_ Hr]%andb_true_iff. by rewrite (IH idx). }
  rewrite Nat.sub_diag, drop_0.
  revert idx Hin. induction sh as [|n r IH]; intros [|i idx]; simpl; try done.
  intros [Hi Hr]%andb_true_iff. apply bool_decide_eq_true in Hi.
  rewrite (IH idx) by done. case_decide; [|done]. f_equal. lia.
Qed.

Lemma in_range_4_inv n0 n1 n2 n3 idx :
  in_range [n0; n1; n2; n3] idx = true →
  ∃ i0 i1 i2 i3, idx = [i0; i1; i2; i3] ∧ i0 < n0 ∧ i1 < n1 ∧ i2 < n2 ∧ i3 < n3.
Proof.
  destruct idx as [|i0 [|i1 [|i2 [|i3 [|]]]]]; simpl; try done;
    rewrite ?andb_false_r; try done.
  rewrite andb_true_r, !andb_true_iff, !bool_decide_eq_true.
  intros (? & ? & ? & ?). by exists i0, i1, i2, i3.
Qed.

(** ... and an operand with a single channel at channel 0. *)
Lemma expand_index_bhw1 B H W b h w ch :
  b < B → h < H → w < W →
  expand_index [B; H; W; 1] [b; h; w; ch] = [b; h; w; 0].
Proof.
  intros. unfold expand_index. simpl.
  repeat case_decide; repeat f_equal; lia.
Qed.

Lemma broadcast_dim_refl n : broadcast_dim n n = Some n.
Proof. unfold broadcast_dim. by rewrite decide_True. Qed.

Lemma broadcast_dim_1_r n : broadcast_dim n 1 = Some n.
Proof. unfold broadcast_dim. repeat case_decide; congruence. Qed.

Lemma broadcast_shapes_bhwc B H W C :
  broadcast_shapes [B; H; W; C] [B; H; W; 1] = Some [B; H; W; C].
Proof.
  unfold broadcast_shapes. simpl.
  by rewrite broadcast_dim_1_r, !broadcast_dim_refl.
Qed.

(* ===================================================================== *)
(** ** [ICLightApplyMaskGrey.apply_mask] *)
(* ===================================================================== *)

Section mask.
Context {T : Type} `{!Scalar T}.
Implicit Types (image alpha : Tensor T).

Lemma get_in_range (x : Tensor T) idx :
  wf x → in_range (shape x) idx = true → is_Some (get x idx).
Proof.
  intros Hwf Hin. unfold get. rewrite Hin.
  apply lookup_lt_is_Some_2. rewrite Hwf. by apply offset_lt.
Qed.

Lemma get_lookup (x : Tensor T) idx v :
  get x idx = Some v → data x !! offset (shape x) idx = Some v.
Proof. unfold get. by destruct (in_range _ _). Qed.

(** An operand of shape (B, H, W, C) against one of shape (B, H, W, 1):
    the result has the first shape, and its element at [b, h, w, ch]
    combines the first operand's element there with the second's at
    [b, h, w, 0]. *)
Lemma broadcast_op_bhwc (f : DType → T → T → T) (x y : Tensor T) B H W C :
  wf x → shape x = [B; H; W; C] → wf y → shape y = [B; H; W; 1] →
  device x = device y →
  ∃ d, broadcast_op f x y
       = Ok (mkTensor (device x) (promote_types (dtype x) (dtype y)) [B; H; W; C] d)
     ∧ length d = numel [B; H; W; C]
     ∧ ∀ idx, in_range [B; H; W; C] idx = true →
         ∃ u v, data x !! offset [B; H; W; C] idx = Some u
                ∧ data y !! offset [B; H; W; 1] (expand_index [B; H; W; 1] idx) = Some v
                ∧ d !! offset [B; H; W; C] idx
                  = Some (f (promote_types (dtype x) (dtype y)) u v).
Proof.
  intros Hwx Hsx Hwy Hsy Hdev. unfold broadcast_op.
  rewrite decide_True by done. rewrite Hsx, Hsy, broadcast_shapes_bhwc.
  set (dt := promote_types (dtype x) (dtype y)).
  set (g := λ idx, u ← get x (expand_index [B; H; W; C] idx);
                   v ← get y (expand_index [B; H; W; 1] idx); Some (f dt u v)).
  assert (∀ idx, in_range [B; H; W; C] idx = true →
            ∃ u v, data x !! offset [B; H; W; C] idx = Some u
                   ∧ data y !! offset [B; H; W; 1] (expand_index [B; H; W; 1] idx) = Some v
                   ∧ g idx = Some (f dt u v)) as Hg.
  { intros idx Hin. unfold g. rewrite (expand_index_id _ _ Hin).
    destruct (get_in_range x idx) as [u Hu]; [done|by rewrite Hsx|].
    destruct (in_range_4_inv _ _ _ _ _ Hin) as (b & h & w & ch & -> & ? & ? & ? & ?).
    destruct (get_in_range y (expand_index [B; H; W; 1] [b; h; w; ch])) as [v Hv]; [done| |].
    { rewrite Hsy, expand_index_bhw1 by done. apply in_range_4; lia. }
    exists u, v. rewrite Hu, Hv. apply get_lookup in Hu, Hv.
    rewrite Hsx in Hu. rewrite Hsy in Hv. done. }
  destruct (mapM g (indices [B; H; W; C])) as [d|] eqn:Hd.
  2: { exfalso. assert (is_Some (mapM g (indices [B; H; W; C]))) as [? Hs];
         [|by rewrite Hs in Hd].
       apply mapM_is_Some, Forall_forall. intros idx Hin%indices_in_range.
       destruct (Hg idx Hin) as (u & v & _ & _ & Hgi).
       unfold compose. rewrite Hgi. by eexists. }
  exists d. split; [done|].
  pose proof (length_mapM _ _ _ Hd) as Hlen. rewrite indices_length in Hlen.
  split; [done|]. intros idx Hin.
  destruct (Hg idx Hin) as (u & v & Hu & Hv & Hgi). exists u, v.
  split; [done|]. split; [done|].
  apply mapM_Some in Hd.
  destruct (Forall2_lookup_l _ _ _ _ _ Hd (indices_lookup _ _ Hin)) as (r & -> & Hr).
  by rewrite <-Hr, Hgi.
Qed.

(** The mask as [apply_mask] uses it: with a trailing axis of size 1. *)
Lemma mask_unsqueezed alpha B H W :
  wf alpha → shape alpha = [B; H; W] ∨ shape alpha = [B; H; W; 1] →
  let alpha' := if decide (ndim alpha = 3) then unsqueeze_last alpha else alpha in
  wf alpha' ∧ shape alpha' = [B; H; W; 1] ∧ data alpha' = data alpha
  ∧ device alpha' = device alpha ∧ dtype alpha' = dtype alpha.
Proof.
  intros Hwf [Hs|Hs]; unfold ndim; rewrite Hs; simpl.
  - split_and!; try done; [|by rewrite Hs]. unfold wf in *. simpl.
    rewrite Hwf, Hs, numel_app. simpl. lia.
  - by split_and!.
Qed.

(** The elements of the result, in the order the code computes them:
    [image * alpha + (1 - alpha) * 0.5]. *)
Lemma apply_mask_elements image alpha B H W C :
  wf image → shape image = [B; H; W; C] →
  wf alpha → shape alpha = [B; H; W] ∨ shape alpha = [B; H; W; 1] →
  device image = device alpha →
  let dta := dtype alpha in
  let dt1 := promote_types (dtype image) dta in
  let dt2 := promote_types dt1 dta in
  ∃ d, apply_mask image (PTensor alpha)
       = Ok (mkTensor (device image) dt2 [B; H; W; C] d)
     ∧ length d = numel [B; H; W; C]
     ∧ ∀ idx, in_range [B; H; W; C] idx = true →
         ∃ x a, data image !! offset [B; H; W; C] idx = Some x
                ∧ data alpha !! offset [B; H; W; 1] (expand_index [B; H; W; 1] idx) = Some a
                ∧ d !! offset [B; H; W; C] idx
                  = Some (sadd dt2 (smul dt1 x a)
                            (smul dta (ssub dta s_one a) s_half)).
Proof.
  intros Hwi Hsi Hwa Hsa Hdev dta dt1 dt2. unfold apply_mask.
  destruct (mask_unsqueezed alpha B H W Hwa Hsa) as (Hw' & Hs' & Hd' & Hdev' & Hdt').
  set (alpha' := if decide (ndim alpha = 3) then unsqueeze_last alpha else alpha) in *.
  destruct (broadcast_op_bhwc smul image alpha' B H W C)
    as (d1 & -> & Hl1 & Hd1); [done..|congruence|].
  change (Ok ?t ≫= ?f) with (f t). cbv beta.
  set (ia := mkTensor _ _ _ d1).
  set (grey := mul_scalar (rsub_one alpha') s_half).
  destruct (broadcast_op_bhwc sadd ia grey B H W C)
    as (d2 & -> & Hl2 & Hd2); [done|done| |done|simpl; congruence|].
  { unfold wf, grey. simpl. by rewrite !length_fmap. }
  exists d2. subst ia grey. simpl device. simpl dtype. rewrite Hdt'.
  split; [done|]. split; [done|]. intros idx Hin.
  destruct (Hd1 idx Hin) as (x & a & Hx & Ha & Hxa).
  destruct (Hd2 idx Hin) as (u & v & Hu & Hv & Huv).
  simpl data in Hu, Hv. rewrite Hxa in Hu. injection Hu as <-.
  rewrite !list_lookup_fmap, Ha in Hv. simpl in Hv. injection Hv as <-.
  exists x, a. rewrite Hd' in Ha. split; [done|]. split; [done|].
  rewrite Huv. simpl. by rewrite Hdt'.
Qed.

Lemma offset_bhw1 B H W b h w ch :
  b < B → h < H → w < W →
  offset [B; H; W; 1] (expand_index [B; H; W; 1] [b; h; w; ch])
  = offset [B; H; W] [b; h; w].
Proof. intros. rewrite expand_index_bhw1 by done. simpl. lia. Qed.

(** Two lists of the size of a shape are equal when they agree at the
    offset of every index in range. *)
Lemma data_ext sh (d1 d2 : list T) :
  length d1 = numel sh → length d2 = numel sh →
  (∀ idx, in_range sh idx = true → d1 !! offset sh idx = d2 !! offset sh idx) →
  d1 = d2.
Proof.
  intros Hl1 Hl2 Hext. apply list_eq. intros k.
  destruct (decide (k < numel sh)) as [Hk|Hk].
  - destruct (offset_surj sh k Hk) as (idx & Hin & <-). by apply Hext.
  - rewrite !lookup_ge_None_2 by lia. done.
Qed.

(** Anything but a tensor as the mask is a [TypeError]. *)
Lemma apply_mask_not_a_tensor image repr :
  apply_mask image (PObject repr) = Raise TypeError.
Proof. done. Qed.

End mask.

(* ===================================================================== *)
(** ** IEEE 754 arithmetic: exact cases of rounding *)
(* ===================================================================== *)

Section ieee.
Local Open Scope Z_scope.

(** A number that is already in canonical form is not changed by
    rounding. *)
Lemma binary_round_aux_exact p E s m e :
  canonical_mantissa p E m e = true → (e <=? E - p) = true →
  binary_round_aux p E s (Zpos m) e loc_Exact = S754_finite s m e.
Proof.
  unfold canonical_mantissa. intros Hc%Z.eqb_eq Hb.
  unfold binary_round_aux, shr_fexp. simpl Zdigits2. rewrite Hc, Z.sub_diag.
  simpl. rewrite Hc, Z.sub_diag. simpl. by rewrite Hb.
Qed.

Lemma binary_round_valid p E s m e :
  bounded p E m e = true → binary_round p E s m e = S754_finite s m e.
Proof.
  unfold bounded. intros [Hc Hb]%andb_prop.
  unfold binary_round, shl_align.
  pose proof Hc as Hc'. unfold canonical_mantissa in Hc'. apply Z.eqb_eq in Hc'.
  rewrite Hc', Z.sub_diag. by apply binary_round_aux_exact.
Qed.

Lemma digits2_pos_iter m d :
  Zpos (digits2_pos (Pos.iter xO m d)) = Zpos (digits2_pos m) + Zpos d.
Proof.
  induction d as [|d IH] using Pos.peano_ind.
  - simpl. lia.
  - rewrite Pos.iter_succ. simpl. lia.
Qed.

(** Conversion to a format with at least the precision and the exponent
    range of the number's own is exact: the result is a finite number of the
    wider format. *)
Lemma binary_round_widen p E p' E' s m e :
  0 < p → p <= p' → E <= E' → 3 - E' - p' <= 3 - E - p → 3 - E' - p' <= E' - p' →
  bounded p E m e = true →
  ∃ m' e', binary_round p' E' s m e = S754_finite s m' e'
           ∧ bounded p' E' m' e' = true.
Proof.
  intros Hp Hpp HE Hemin Hne. unfold bounded. intros [Hc Hb]%andb_prop.
  unfold canonical_mantissa in Hc. apply Z.eqb_eq in Hc. apply Z.leb_le in Hb.
  unfold fexp, emin in Hc.
  unfold binary_round, shl_align.
  set (e1 := fexp p' E' (Zpos (digits2_pos m) + e)).
  assert (e1 <= e) as Hle by (unfold e1, fexp, emin; lia).
  assert (e1 <= E' - p') as Hb1 by (unfold e1, fexp, emin; lia).
  destruct (e1 - e) as [|d|d] eqn:Hd; try lia.
  - assert (e1 = e) as He by lia.
    exists m, e.
    assert (bounded p' E' m e = true) as Hbd.
    { unfold bounded, canonical_mantissa. fold e1. rewrite He, Z.eqb_refl. simpl.
      apply Z.leb_le. lia. }
    split; [|done].
    unfold bounded in Hbd. apply andb_prop in Hbd as [? ?].
    by apply binary_round_aux_exact.
  - exists (Pos.iter xO m d), e1.
    assert (bounded p' E' (Pos.iter xO m d) e1 = true) as Hbd.
    { unfold bounded, canonical_mantissa. rewrite digits2_pos_iter.
      replace (Zpos (digits2_pos m) + Zpos d + e1)
        with (Zpos (digits2_pos m) + e) by lia.
      fold e1. rewrite Z.eqb_refl. simpl. apply Z.leb_le. lia. }
    split; [|done].
    unfold bounded in Hbd. apply andb_prop in Hbd as [? ?].
    by apply binary_round_aux_exact.
Qed.

Lemma SFmul_comm p E x y : SFmul p E x y = SFmul p E y x.
Proof.
  destruct x as [sx|sx| |sx mx ex], y as [sy|sy| |sy my ey]; simpl;
    rewrite ?(xorb_comm sx sy); try reflexivity.
  by rewrite Pos.mul_comm, Z.add_comm.
Qed.

Lemma iter_pos_iter {A} (f : A → A) d x :
  SpecFloat.iter_pos f d x = Pos.iter f x d.
Proof.
  revert x. induction d as [d IH|d IH|]; intros x; simpl.
  - by rewrite !IH, !Pos.iter_swap.
  - by rewrite !IH.
  - done.
Qed.

(** Shifting right by [d] bits a significand that ends in [d] zero bits
    loses nothing. *)
Lemma shr_1_iter d m :
  SpecFloat.iter_pos shr_1 d
    (Build_shr_record (Zpos (Pos.iter xO m d)) false false)
  = Build_shr_record (Zpos m) false false.
Proof.
  rewrite iter_pos_iter. revert m.
  induction d as [|d IH] using Pos.peano_ind; intros m.
  - done.
  - rewrite (Pos.iter_succ_r d _ shr_1), (Pos.iter_succ d _ xO). apply IH.
Qed.

Lemma mul_iter_xO m d : (m * Pos.iter xO 1%positive d)%positive = Pos.iter xO m d.
Proof.
  induction d as [|d IH] using Pos.peano_ind.
  - simpl. lia.
  - rewrite !Pos.iter_succ. lia.
Qed.

(** The product of a number of the format with 1, the latter in its
    canonical form [2^d * 2^(-d)], is the number itself. *)
Lemma SFmul_pow2 p E s m e d :
  bounded p E m e = true →
  SFmul p E (S754_finite s m e)
    (S754_finite false (Pos.iter xO 1%positive d) (Zneg d))
  = S754_finite s m e.
Proof.
  unfold bounded. intros [Hc Hb]%andb_prop.
  pose proof Hc as Hc'. unfold canonical_mantissa in Hc'. apply Z.eqb_eq in Hc'.
  simpl. rewrite xorb_false_r, mul_iter_xO.
  unfold binary_round_aux, shr_fexp at 1. simpl Zdigits2.
  rewrite digits2_pos_iter.
  replace (Zpos (digits2_pos m) + Zpos d + (e + Zneg d))
    with (Zpos (digits2_pos m) + e) by lia.
  rewrite Hc'. replace (e - (e + Zneg d)) with (Zpos d) by lia.
  simpl shr. rewrite shr_1_iter. simpl.
  replace (e + Zneg d + Zpos d) with e by lia.
  unfold shr_fexp. simpl Zdigits2. rewrite Hc', Z.sub_diag. simpl.
  by rewrite Hb.
Qed.

(** *** The four formats *)

Lemma ieee_cast_valid d x : ieee_valid d x → ieee_cast d x = x.
Proof.
  destruct x as [| | |s m e]; try done. intros Hv. by apply binary_round_valid.
Qed.

(** Type promotion only widens. *)
Lemma ieee_cast_promote di da x :
  ieee_valid di x → ieee_valid (promote_types di da) (ieee_cast (promote_types di da) x).
Proof.
  destruct x as [| | |s m e]; try done. intros Hv. simpl.
  destruct (binary_round_widen (prec_of di) (emax_of di)
              (prec_of (promote_types di da)) (emax_of (promote_types di da))
              s m e) as (m' & e' & -> & Hb); try done;
    destruct di, da; simpl; lia.
Qed.

Lemma ieee_cast_promote_finite di da x :
  ieee_valid di x →
  ieee_finite (ieee_cast (promote_types di da) x) = ieee_finite x.
Proof.
  destruct x as [| | |s m e]; try done. intros Hv. simpl.
  destruct (binary_round_widen (prec_of di) (emax_of di)
              (prec_of (promote_types di da)) (emax_of (promote_types di da))
              s m e) as (m' & e' & -> & Hb); try done;
    destruct di, da; simpl; lia.
Qed.

Lemma promote_types_absorb di da :
  promote_types (promote_types di da) da = promote_types di da.
Proof. by destruct di, da. Qed.

Lemma ieee_mul_comm d x y : ieee_op SFmul d x y = ieee_op SFmul d y x.
Proof. apply SFmul_comm. Qed.

(** The number 1 of any format, converted to any format, is that format's
    1, in the form [2^(p-1) * 2^(1-p)]. *)
Lemma ieee_cast_one d da :
  ieee_cast d (ieee_cast da s_one)
  = S754_finite false (Pos.iter xO 1%positive (Z.to_pos (prec_of d - 1)))
      (Zneg (Z.to_pos (prec_of d - 1))).
Proof. by destruct d, da. Qed.

(** [x * 1 = x] *)
Lemma ieee_mul_one d da x :
  ieee_valid d x → ieee_op SFmul d x (ieee_cast da s_one) = x.
Proof.
  intros Hv. unfold ieee_op. rewrite (ieee_cast_valid d x Hv), ieee_cast_one.
  destruct x as [s|s| |s m e]; simpl.
  - by rewrite xorb_false_r.
  - by rewrite xorb_false_r.
  - done.
  - by apply SFmul_pow2.
Qed.

(** [(1 - 1) * 0.5 = +0] *)
Lemma ieee_grey_one da :
  ieee_op SFmul da (ieee_op SFsub da s_one (ieee_cast da s_one)) s_half
  = S754_zero false.
Proof. by destruct da. Qed.

(** [x + 0 = x], up to the sign of a zero. *)
Lemma ieee_add_zero d x :
  ieee_valid d x → ieee_op SFadd d x (S754_zero false) = flush_neg_zero x.
Proof.
  intros Hv. unfold ieee_op. rewrite (ieee_cast_valid d x Hv).
  by destruct x as [[]|[]| |s m e].
Qed.

(** [x * 0] is a zero for a finite [x] and NaN otherwise. *)
Lemma ieee_mul_zero di da x s :
  ieee_valid di x →
  if ieee_finite x
  then ieee_is_zero (ieee_op SFmul (promote_types di da) x (S754_zero s))
  else ieee_op SFmul (promote_types di da) x (S754_zero s) = S754_nan.
Proof.
  intros Hv. unfold ieee_op.
  destruct x as [sx|sx| |sx m e]; simpl; [by eexists|done|done|].
  destruct (binary_round_widen (prec_of di) (emax_of di)
              (prec_of (promote_types di da)) (emax_of (promote_types di da))
              sx m e) as (m' & e' & -> & Hb); try done;
    [destruct di, da; simpl; lia..|].
  by eexists.
Qed.

(** [(1 - 0) * 0.5 = 0.5] *)
Lemma ieee_grey_zero da s :
  ieee_op SFmul da (ieee_op SFsub da s_one (S754_zero s)) s_half
  = ieee_cast da s_half.
Proof. by destruct da, s. Qed.

(** [0 + 0.5 = 0.5], and NaN plus anything is NaN. *)
Lemma ieee_zero_add_half d da s :
  ieee_op SFadd d (S754_zero s) (ieee_cast da s_half) = ieee_cast d s_half.
Proof. by destruct d, da, s. Qed.

Lemma ieee_nan_add d y : ieee_op SFadd d S754_nan y = S754_nan.
Proof. done. Qed.

End ieee.

(* ===================================================================== *)
(** ** [apply_mask] on floating-point tensors *)
(* ===================================================================== *)

Section mask_ieee.
Implicit Types (image alpha : Tensor spec_float).

(** C9, as the code has it on floating-point numbers.  For an image of
    shape (B, H, W, C) and a mask of shape (B, H, W) or (B, H, W, 1) on the
    image's device, [apply_mask] returns a tensor of the image's shape and
    the promoted dtype whose element at [b, h, w, ch] is
    [image * alpha + 0.5 * (1 - alpha)] for the image's element there and
    the mask's element at [b, h, w].  For an image holding numbers of its
    dtype: when the mask is 1 everywhere, the result holds the image's
    elements, converted to the result's dtype, with a negative zero turned
    into the positive one, so for a result of the image's dtype the image's
    elements themselves up to the sign of a zero; when the mask is 0
    everywhere, the result holds 0.5 where the image's element is finite and
    NaN where it is an infinity or NaN. *)
Theorem apply_mask_ieee_law image alpha B H W C :
  wf image → shape image = [B; H; W; C] →
  wf alpha → shape alpha = [B; H; W] ∨ shape alpha = [B; H; W; 1] →
  device image = device alpha →
  ∃ result,
    apply_mask image (PTensor alpha) = Ok result
    ∧ shape result = [B; H; W; C]
    ∧ dtype result = promote_types (dtype image) (dtype alpha)
    ∧ (∀ b h w ch, b < B → h < H → w < W → ch < C →
         ∃ x a, get image [b; h; w; ch] = Some x
                ∧ data alpha !! offset [B; H; W] [b; h; w] = Some a
                ∧ get result [b; h; w; ch]
                  = Some (sadd (dtype result)
                            (smul (dtype result) x a)
                            (smul (dtype alpha) s_half
                               (ssub (dtype alpha) s_one a))))
    ∧ (Forall (ieee_valid (dtype image)) (data image) →
       Forall (λ a, a = ieee_cast (dtype alpha) s_one) (data alpha) →
       data result
       = (λ x, flush_neg_zero (ieee_cast (dtype result) x)) <$> data image
       ∧ (dtype result = dtype image →
          data result = flush_neg_zero <$> data image))
    ∧ (Forall (ieee_valid (dtype image)) (data image) →
       Forall ieee_is_zero (data alpha) →
       data result
       = (λ x, if ieee_finite x then ieee_cast (dtype result) s_half
               else S754_nan) <$> data image).
Proof.
  intros Hwi Hsi Hwa Hsa Hdev.
  destruct (apply_mask_elements image alpha B H W C) as (d & -> & Hl & Hd); [done..|].
  rewrite promote_types_absorb in Hd |- *.
  set (di := dtype image) in *. set (da := dtype alpha) in *.
  eexists. split; [done|]. simpl shape. simpl data. simpl dtype.
  split; [done|]. split; [done|].
  assert (length (data image) = numel [B; H; W; C]) as Hli by by rewrite <-Hsi.
  assert (Forall (ieee_valid di) (data image) →
          Forall (λ a, a = ieee_cast da s_one) (data alpha) →
          d = (λ x, flush_neg_zero (ieee_cast (promote_types di da) x))
              <$> data image) as Hone.
  { intros Hval Hone. apply (data_ext [B; H; W; C]); [done|by rewrite length_fmap|].
    intros idx Hin. destruct (Hd idx Hin) as (x & a & Hx & Ha & Hxa).
    rewrite Hxa, list_lookup_fmap, Hx. simpl. f_equal.
    rewrite Forall_forall in Hone. rewrite (Hone a) by by eapply list_elem_of_lookup_2.
    rewrite Forall_forall in Hval.
    assert (ieee_valid di x) as Hvx by by eapply Hval, list_elem_of_lookup_2.
    pose proof (ieee_cast_promote di da x Hvx) as Hv1.
    change (smul ?dt ?u ?v) with (ieee_op SFmul dt u v).
    change (ssub ?dt ?u ?v) with (ieee_op SFsub dt u v).
    change (sadd ?dt ?u ?v) with (ieee_op SFadd dt u v).
    rewrite ieee_grey_one.
    assert (ieee_op SFmul (promote_types di da) x (ieee_cast da s_one)
            = ieee_cast (promote_types di da) x) as ->.
    { transitivity (ieee_op SFmul (promote_types di da)
                      (ieee_cast (promote_types di da) x) (ieee_cast da s_one));
        [|by apply ieee_mul_one].
      unfold ieee_op. by rewrite (ieee_cast_valid _ _ Hv1). }
    by apply ieee_add_zero. }
  split_and!.
  - intros b h w ch Hb Hh Hw Hch.
    destruct (Hd [b; h; w; ch]) as (x & a & Hx & Ha & Hxa); [by apply in_range_4|].
    rewrite offset_bhw1 in Ha by done. exists x, a.
    unfold get. simpl shape. simpl data. rewrite Hsi, !in_range_4 by done.
    split; [done|]. split; [done|].
    rewrite Hxa. do 2 f_equal. apply ieee_mul_comm.
  - intros Hval Ha1. split; [by apply Hone|].
    intros Hdt. rewrite (Hone Hval Ha1). apply Forall_fmap_ext_1.
    eapply Forall_impl; [exact Hval|]. intros x Hvx. simpl.
    by rewrite Hdt, (ieee_cast_valid di x Hvx).
  - intros Hval Hzero.
    apply (data_ext [B; H; W; C]); [done|by rewrite length_fmap|].
    intros idx Hin. destruct (Hd idx Hin) as (x & a & Hx & Ha & Hxa).
    rewrite Hxa, list_lookup_fmap, Hx. simpl. f_equal.
    rewrite Forall_forall in Hzero.
    destruct (Hzero a) as [sa ->]; [by eapply list_elem_of_lookup_2|].
    rewrite Forall_forall in Hval.
    assert (ieee_valid di x) as Hvx by by eapply Hval, list_elem_of_lookup_2.
    change (smul ?dt ?u ?v) with (ieee_op SFmul dt u v).
    change (ssub ?dt ?u ?v) with (ieee_op SFsub dt u v).
    change (sadd ?dt ?u ?v) with (ieee_op SFadd dt u v).
    rewrite ieee_grey_zero.
    pose proof (ieee_mul_zero di da x sa Hvx) as Hmul.
    destruct (ieee_finite x).
    + destruct Hmul as [s' ->]. apply ieee_zero_add_half.
    + by rewrite Hmul.
Qed.

End mask_ieee.

(* ===================================================================== *)
(** ** The laws at work on concrete inputs *)
(* ===================================================================== *)

(** The scale law on a latent of shape (2, 4, 16, 16) with the scale factor
    0.18215: the conditioning tensor has shape (1, 8, 16, 16). *)
Lemma concat_conds_scale_law_witness :
  0 < 2 ∧ wf ex_latent ∧ shape ex_latent = [2; 4; 16; 16]
  ∧ ∃ conds, concat_conds ex_latent ex_scale = Ok conds
      ∧ shape conds = [1; 8; 16; 16]
      ∧ data conds = (λ x, Qcmult x ex_scale) <$> data ex_latent.
Proof.
  split; [lia|]. split; [reflexivity|]. split; [reflexivity|].
  destruct (concat_conds_scale_law ex_latent ex_scale 2 4 16 16)
    as (conds & Hc & Hs & Hd & _); [lia|reflexivity|reflexivity|].
  exists conds. split; [exact Hc|]. split; [exact Hs|exact Hd].
Defined.

(** The broadcast law on a live batch of 3. *)
Lemma apply_c_concat_broadcast_law_witness :
  wf ex_conds ∧ shape ex_conds = [1; 2; 1; 2]
  ∧ shape (input ex_params) = [3; 4; 1; 2] ∧ 0 < 3
  ∧ ∃ injected params' slice,
      apply_c_concat ex_conds ex_params = Ok params'
      ∧ c params' !! "c_concat" = Some (PTensor injected)
      ∧ shape injected = [3; 2; 1; 2]
      ∧ unbind ex_conds = Ok [slice]
      ∧ unbind injected = Ok (replicate 3 (to_device (Cuda 0) slice)).
Proof.
  split; [reflexivity|]. split; [reflexivity|]. split; [reflexivity|].
  split; [lia|].
  apply (apply_c_concat_broadcast_law ex_conds ex_params 3 [4; 1; 2] [2; 1; 2]);
    [reflexivity|reflexivity|reflexivity|lia].
Defined.

(** Against C6 as stated: a latent in single precision, a live input in half
    precision; the injected tensor is on the live input's device but in the
    latent's precision. *)
Lemma apply_c_concat_keeps_latent_dtype :
  ∃ conds params' injected,
    concat_conds ex_samples ex_scale = Ok conds
    ∧ apply_c_concat conds ex_params = Ok params'
    ∧ c params' !! "c_concat" = Some (PTensor injected)
    ∧ device injected = device (input ex_params)
    ∧ dtype injected = Float32
    ∧ dtype (input ex_params) = Float16
    ∧ dtype injected ≠ dtype (input ex_params).
Proof.
  eexists ex_conds, _, _. split; [reflexivity|]. split; [reflexivity|].
  split; [reflexivity|]. split; [reflexivity|]. split; [reflexivity|].
  split; [reflexivity|]. discriminate.
Qed.

Lemma apply_c_concat_device_dtype_witness :
  concat_conds ex_samples ex_scale = Ok ex_conds
  ∧ shape (input ex_params) = [3; 4; 1; 2] ∧ 0 < 3
  ∧ ∃ injected params',
      apply_c_concat ex_conds ex_params = Ok params'
      ∧ c params' !! "c_concat" = Some (PTensor injected)
      ∧ device injected = Cuda 0
      ∧ dtype injected = Float32
      ∧ device ex_conds = Cpu
      ∧ dtype ex_conds = Float32.
Proof.
  split; [reflexivity|]. split; [reflexivity|]. split; [lia|].
  apply (apply_c_concat_device_dtype ex_samples ex_scale ex_conds ex_params 3 [4; 1; 2]);
    [reflexivity|reflexivity|lia].
Defined.

Lemma concat_conds_batch_one_witness :
  concat_conds ex_samples ex_scale = Ok ex_conds
  ∧ shape ex_conds !! 0 = Some 1
  ∧ floordiv 3 1 = Ok 3
  ∧ ∃ injected params',
      apply_c_concat ex_conds ex_params = Ok params'
      ∧ c params' !! "c_concat" = Some (PTensor injected)
      ∧ shape injected !! 0 = Some 3.
Proof.
  split; [reflexivity|].
  destruct (concat_conds_batch_one ex_samples ex_scale ex_conds)
    as (Hb & Hdiv & Hinj); [reflexivity|].
  split; [exact Hb|]. split; [exact (proj1 (Hdiv 3))|].
  apply (Hinj ex_params 3 [4; 1; 2]); [reflexivity|lia].
Defined.

(** A call on the example store succeeds and leaves [ex_heap_relit]. *)
Lemma ex_heap_apply :
  ICLight_apply 0 1 ex_c_concat ex_heap = (Ok 2, ex_heap_relit).
Proof.
  by apply (ICLight_apply_run 0 1 ex_c_concat ex_heap
              (ex_patcher 0 None) ex_samples ex_base ex_conds
              (ex_patcher 1 None) ex_ic_base).
Qed.



Lemma ICLight_apply_patch_set_witness :
  ICLight_apply 0 1 ex_c_concat ex_heap = (Ok 2, ex_heap_relit)
  ∧ 1 < length (patchers ex_heap)
  ∧ ∃ p' registered,
      patchers ex_heap_relit !! 2 = Some p'
      ∧ patches p' = merge append_patch ∅ registered
      ∧ registered !! "diffusion_model.input_blocks.0.0.weight"
        = Some (mkPatch "diff"
                  (mkTensor (Cuda 0) Float16 [1; 2] (ex_q <$> [5; 6])) true)
      ∧ registered !! "diffusion_model.out.2.bias"
        = Some (mkPatch "diff"
                  (mkTensor (Cuda 0) Float16 [1] (ex_q <$> [7])) false)
      ∧ size registered = 2.
Proof.
  split; [exact ex_heap_apply|]. split; [simpl; lia|].
  destruct (ICLight_apply_patch_set 0 1 ex_c_concat ex_heap 2 ex_heap_relit
              ex_heap_apply)
    as (p & p' & icp & icb & registered & Hp & Hp' & Hicp & Hicb & Hpatches
        & Hreg & _ & Hsize);
    [simpl; lia|].
  injection Hp as <-. injection Hicp as <-. injection Hicb as <-.
  exists p', registered. split; [exact Hp'|]. split; [exact Hpatches|].
  split; [exact (Hreg "input_blocks.0.0.weight")|].
  split; [exact (Hreg "out.2.bias")|exact Hsize].
Defined.

Lemma ICLight_apply_missing_samples_witness :
  (∅ : gmap string (pyval Qc)) !! "samples" = None
  ∧ ICLight_apply 0 1 ∅ ex_heap = (Raise KeyError, ex_heap).
Proof.
  split; [reflexivity|].
  apply (ICLight_apply_missing_samples 0 1 ∅ ex_heap). reflexivity.
Defined.

Lemma ICLight_apply_frame_witness :
  ICLight_apply 0 1 ex_c_concat ex_heap = (Ok 2, ex_heap_relit)
  ∧ base_models ex_heap_relit = base_models ex_heap
  ∧ patchers ex_heap_relit !! 0 = patchers ex_heap !! 0
  ∧ patchers ex_heap_relit !! 1 = patchers ex_heap !! 1.
Proof.
  split; [exact ex_heap_apply|].
  destruct (ICLight_apply_frame 0 1 ex_c_concat ex_heap 2 ex_heap_relit
              ex_heap_apply)
    as (Hbase & _ & Hm & Ha & _).
  split; [exact Hbase|]. split; [exact Hm|]. apply Ha. simpl. lia.
Defined.

(** The encoder keeps its flag on both exits of the standard encode. *)
Lemma VAEEncodeArgMax_encode_restores_witness :
  VAEEncodeArgMax_encode ex_VAEEncode_encode (AutoencoderKL false 0) [1; 2]
  = (Ok false, AutoencoderKL false 1)
  ∧ VAEEncodeArgMax_encode ex_VAEEncode_encode (AutoencoderKL false 0) []
    = (Raise RuntimeError, AutoencoderKL false 1).
Proof.
  split.
  - apply (proj1 (VAEEncodeArgMax_encode_restores ex_VAEEncode_encode false 0 [1; 2])
             false true 1).
    reflexivity.
  - apply (proj2 (VAEEncodeArgMax_encode_restores ex_VAEEncode_encode false 0 [])
             RuntimeError true 1).
    reflexivity.
Defined.

(** Against C9 as stated: a float32 image with an infinite and a NaN
    element under a mask that is 0 everywhere.  The result is not 0.5
    everywhere: [inf * 0] and [nan * 0] are NaN, and so is the sum. *)
Lemma apply_mask_nonfinite_pixel :
  wf ex_image_nonfinite ∧ shape ex_image_nonfinite = [1; 1; 1; 3]
  ∧ Forall (ieee_valid Float32) (data ex_image_nonfinite)
  ∧ wf ex_alpha_zeros ∧ shape ex_alpha_zeros = [1; 1; 1]
  ∧ Forall (λ a, a = s_zero) (data ex_alpha_zeros)
  ∧ ∃ result,
      apply_mask ex_image_nonfinite (PTensor ex_alpha_zeros) = Ok result
      ∧ shape result = [1; 1; 1; 3]
      ∧ data result = [S754_nan; ieee_cast Float32 s_half; S754_nan]
      ∧ ¬ Forall (λ r, r = ieee_cast Float32 s_half) (data result).
Proof.
  split; [reflexivity|]. split; [reflexivity|].
  split; [by repeat constructor|].
  split; [reflexivity|]. split; [reflexivity|].
  split; [by repeat constructor|].
  eexists. split; [reflexivity|]. split; [reflexivity|]. split; [reflexivity|].
  simpl data. by intros [[=] _]%Forall_cons.
Qed.

(** The mask law on a float32 image of shape (1, 1, 1, 3) holding -0.0,
    0.25 and 1.5 under a mask that is 1 everywhere: the result holds +0.0,
    0.25 and 1.5. *)
Lemma apply_mask_ieee_law_witness :
  wf ex_image_f32 ∧ shape ex_image_f32 = [1; 1; 1; 3]
  ∧ wf ex_alpha_ones ∧ shape ex_alpha_ones = [1; 1; 1]
  ∧ device ex_image_f32 = device ex_alpha_ones
  ∧ Forall (ieee_valid Float32) (data ex_image_f32)
  ∧ Forall (λ a, a = ieee_cast Float32 s_one) (data ex_alpha_ones)
  ∧ ∃ result,
      apply_mask ex_image_f32 (PTensor ex_alpha_ones) = Ok result
      ∧ shape result = [1; 1; 1; 3]
      ∧ dtype result = Float32
      ∧ data result
        = [S754_zero false; S754_finite false 8388608 (-25);
           S754_finite false 12582912 (-23)].
Proof.
  assert (Forall (ieee_valid Float32) (data ex_image_f32)) as Hval
    by (by repeat constructor).
  assert (Forall (λ a, a = ieee_cast Float32 s_one) (data ex_alpha_ones)) as Hone
    by (by repeat constructor).
  split; [reflexivity|]. split; [reflexivity|]. split; [reflexivity|].
  split; [reflexivity|]. split; [reflexivity|].
  split; [exact Hval|]. split; [exact Hone|].
  destruct (apply_mask_ieee_law ex_image_f32 ex_alpha_ones 1 1 1 3)
    as (result & Hr & Hs & Hdt & _ & Hones & _);
    [reflexivity|reflexivity|reflexivity|left; reflexivity|reflexivity|].
  exists result. split; [exact Hr|]. split; [exact Hs|]. split; [exact Hdt|].
  exact (proj2 (Hones Hval Hone) Hdt).
Defined.

(* ===================================================================== *)
(** ** More on the conditioning tensor and its injection *)
(* ===================================================================== *)

Section conditioning_more.
Context {T : Type} `{!Scalar T}.
Implicit Types (samples conds : Tensor T) (params : UnetParams T).

(** A latent with a non-empty batch axis and a channel axis is served. *)
Lemma concat_conds_succeeds samples (s : T) b C rest :
  shape samples = S b :: C :: rest →
  ∃ conds, concat_conds samples s = Ok conds
           ∧ shape conds = 1 :: S b * C :: rest.
Proof.
  intros Hs. unfold concat_conds.
  destruct (slices_uniform_shape (mul_scalar samples s) (S b) (C :: rest))
    as (cs & -> & Hlen & Hu); [done|].
  change (Ok cs ≫= _) with (torch_cat (index_none <$> cs) 1).
  destruct (index_none <$> cs) as [|t0 ts] eqn:Hl.
  { apply (f_equal length) in Hl. rewrite length_fmap in Hl. simpl in Hl. lia. }
  assert (length (t0 :: ts) = S b) as Hn.
  { rewrite <-Hl. by rewrite length_fmap. }
  rewrite (torch_cat_unfold _ _ _ _ _ _ Hu) by (simpl; lia).
  rewrite Hn. by eexists.
Qed.

(** X1.  What [concat_conds] makes of a latent is decided by the latent's
    shape alone: a 0-d latent is not iterable ([TypeError]), an empty batch
    leaves [torch.cat] without operands ([RuntimeError]), a non-empty 1-d
    latent has no axis 1 to concatenate along ([IndexError]), and every
    latent with a non-empty batch axis and a channel axis yields a
    conditioning tensor of batch size 1 with the batch folded into the
    channels. *)
Theorem concat_conds_outcome samples (s : T) :
  match shape samples with
  | [] => concat_conds samples s = Raise TypeError
  | 0 :: _ => concat_conds samples s = Raise RuntimeError
  | [S _] => concat_conds samples s = Raise IndexError
  | S b :: C :: rest =>
      ∃ conds, concat_conds samples s = Ok conds
               ∧ shape conds = 1 :: S b * C :: rest
  end.
Proof.
  destruct (shape samples) as [|[|b] [|C rest]] eqn:Hs;
    try (unfold concat_conds, unbind; simpl; by rewrite Hs).
  by apply concat_conds_succeeds.
Qed.

(** X2.  The scale law for latents of any rank from 2 on (video latents
    have rank 5): the conditioning tensor keeps the latent's device and
    dtype, has shape (1, B0*C, ...), holds the latent's elements multiplied
    by the scale factor in the latent's own order, and is well formed. *)
Theorem concat_conds_any_rank samples (s : T) B0 C rest :
  wf samples → shape samples = B0 :: C :: rest → 0 < B0 →
  ∃ conds,
    concat_conds samples s = Ok conds
    ∧ conds = mkTensor (device samples) (dtype samples) (1 :: B0 * C :: rest)
                ((λ x, smul (dtype samples) x s) <$> data samples)
    ∧ wf conds.
Proof.
  intros Hwf Hs HB. unfold concat_conds.
  destruct (slices_uniform (mul_scalar samples s) B0 (C :: rest))
    as (cs & -> & Hlen & Hu & Hw & Hdata); [done| |].
  { unfold wf in *. simpl. by rewrite length_fmap. }
  change (Ok cs ≫= _) with (torch_cat (index_none <$> cs) 1).
  destruct (index_none <$> cs) as [|t0 ts] eqn:Hcs.
  { apply (f_equal length) in Hcs. rewrite length_fmap in Hcs. simpl in Hcs. lia. }
  rewrite (torch_cat_outer1 _ _ _ _ _ _ Hu Hw); [|simpl; lia|simpl; lia].
  assert (length (t0 :: ts) = B0) as ->.
  { rewrite <-Hcs. by rewrite length_fmap. }
  rewrite Hdata. eexists; split; [done|]. split; [done|].
  unfold wf in *. simpl. rewrite length_fmap, Hwf, Hs. simpl. lia.
Qed.

(** The operand list decides where the result of [torch.cat] lives. *)
Lemma torch_cat_device (t0 : Tensor T) ts dim r :
  torch_cat (t0 :: ts) dim = Ok r → device r = device t0.
Proof.
  unfold torch_cat. case_bool_decide; [|done].
  destruct (forallb _ _); [|done]. by intros [= <-].
Qed.

(** The injected tensor is made of the conditioning tensor and the live
    input only: two calls with the same live input get the same tensor,
    each into its own mapping. *)
Lemma apply_c_concat_input_only conds params params' :
  apply_c_concat conds params = Ok params' →
  ∃ injected,
    c params' = <["c_concat" := PTensor injected]> (c params)
    ∧ device injected = device (input params)
    ∧ ∀ params2, input params2 = input params →
        apply_c_concat conds params2
        = Ok (mkUnetParams (input params2) (timestep params2)
                (<["c_concat" := PTensor injected]> (c params2))
                (cond_or_uncond params2)).
Proof.
  unfold apply_c_concat. intros Hc.
  destruct (of_option _ (shape (input params) !! 0)) as [b|] eqn:Hb; [|done].
  destruct (of_option _ (shape conds !! 0)) as [b0|] eqn:Hb0; [|done].
  simpl in Hc. destruct (floordiv b b0) as [n|] eqn:Hn; [|done]. simpl in Hc.
  destruct (torch_cat _ _) as [injected|] eqn:Hcat; [|done]. simpl in Hc.
  injection Hc as <-. exists injected. split; [done|]. split.
  - destruct n as [|n]; [done|]. by apply torch_cat_device in Hcat.
  - intros params2 Hin. rewrite Hin, Hb. ok_step. ok_step.
    rewrite Hn. ok_step. rewrite Hcat. by ok_step.
Qed.

(** X3.  The injection step touches one entry only: the input, the
    timestep and the guidance selector of the call are passed on as they
    came, every entry of the conditioning mapping but [c_concat] is kept,
    and [c_concat] holds a tensor on the live input's device, whatever was
    stored under that name before. *)
Theorem apply_c_concat_frame conds params params' :
  apply_c_concat conds params = Ok params' →
  input params' = input params
  ∧ timestep params' = timestep params
  ∧ cond_or_uncond params' = cond_or_uncond params
  ∧ (∀ k, k ≠ "c_concat" → c params' !! k = c params !! k)
  ∧ ∃ injected, c params' !! "c_concat" = Some (PTensor injected)
                ∧ device injected = device (input params).
Proof.
  intros Hc. destruct (apply_c_concat_Ok _ _ _ Hc) as [t Ht].
  destruct (apply_c_concat_input_only _ _ _ Hc) as (injected & Hi & Hdev & _).
  subst params'. simpl in *. split_and!; try done.
  - intros k Hk. by rewrite lookup_insert_ne.
  - exists injected. by rewrite Hi, lookup_insert_eq.
Qed.

(** X4.  Injecting twice is injecting once: a second run of the injection
    step on its own result changes nothing. *)
Theorem apply_c_concat_idempotent conds params params' :
  apply_c_concat conds params = Ok params' →
  apply_c_concat conds params' = Ok params'.
Proof.
  intros Hc. destruct (apply_c_concat_Ok _ _ _ Hc) as [t Ht].
  destruct (apply_c_concat_input_only _ _ _ Hc) as (injected & Hi & _ & Hsame).
  rewrite (Hsame params') by by subst.
  subst params'. simpl in *. by rewrite Hi, insert_insert_eq.
Qed.

(** X5.  With a conditioning tensor [concat_conds] computed, the injection
    step is decided by the live input's shape: a 0-d input has no batch
    size to read ([IndexError]), an empty batch leaves [torch.cat] without
    operands ([RuntimeError]), and every non-empty batch is served. *)
Theorem apply_c_concat_outcome samples (s : T) conds params :
  concat_conds samples s = Ok conds →
  match shape (input params) with
  | [] => apply_c_concat conds params = Raise IndexError
  | 0 :: _ => apply_c_concat conds params = Raise RuntimeError
  | S b :: _ => ∃ params', apply_c_concat conds params = Ok params'
  end.
Proof.
  intros (B0 & C & crest & _ & _ & Hc & _)%concat_conds_inv.
  destruct (shape (input params)) as [|[|b] rest] eqn:Hi.
  - unfold apply_c_concat. by rewrite Hi.
  - unfold apply_c_concat. by rewrite Hc, Hi.
  - destruct (apply_c_concat_unfold conds params (S b) rest _ Hc Hi)
      as (d & -> & _); [lia|]. by eexists.
Qed.

End conditioning_more.

(* ===================================================================== *)
(** ** More on the wrapper chain and on [ICLight.apply] *)
(* ===================================================================== *)

Section apply_more.
Context {T : Type} `{!Scalar T}.
Implicit Types (h : Heap T) (p : ModelPatcher T) (cc : gmap string (pyval T))
  (conds : Tensor T) (params : UnetParams T).

(** X7.  Stacked conditioning stages: on a non-empty live batch the native
    forward is invoked once, and the [c_concat] it receives is the one of
    the stage installed first.  The stages installed later run earlier, and
    the entry they wrote is replaced on the way in. *)
Theorem installed_chain_first_wins (cs : list (Tensor T)) conds1 model_fn params B rest :
  Forall (λ conds, ∃ crest, shape conds = 1 :: crest) (cs ++ [conds1]) →
  shape (input params) = B :: rest → 0 < B →
  ∃ params1 call,
    apply_c_concat conds1 params = Ok params1
    ∧ run model_fn (installed_chain (cs ++ [conds1]) native_forward params)
      = (model_fn call, [call])
    ∧ call_kwargs call = c params1.
Proof.
  intros [Hcs [[crest1 Hc1] _]%Forall_cons]%Forall_app. revert params.
  induction Hcs as [|conds0 cs [crest0 Hc0] _ IH]; intros params Hi HB.
  - destruct (apply_c_concat_unfold conds1 params B rest crest1 Hc1 Hi HB)
      as (d & Hinj & _).
    eexists _,
      (mkForwardCall (input params) (timestep params)
         (<["c_concat" :=
              PTensor (mkTensor (device (input params)) (dtype conds1)
                         (B :: crest1) d)]> (c params))).
    split; [exact Hinj|].
    simpl app. rewrite installed_chain_cons, wrapper_func_call, Hinj,
      call_params_keyword_bound by done. simpl.
    split; [by destruct (model_fn _)|done].
  - destruct (apply_c_concat_unfold conds0 params B rest crest0 Hc0 Hi HB)
      as (d0 & Hinj0 & _).
    set (params0 := mkUnetParams (input params) (timestep params)
                      (<["c_concat" :=
                           PTensor (mkTensor (device (input params)) (dtype conds0)
                                      (B :: crest0) d0)]> (c params))
                      (cond_or_uncond params)) in *.
    destruct (IH params0 Hi HB) as (params1' & call & Hinj1' & Hrun & Hkw).
    destruct (apply_c_concat_unfold conds1 params B rest crest1 Hc1 Hi HB)
      as (d1 & Hinj1 & _).
    destruct (apply_c_concat_input_only _ _ _ Hinj1) as (injected & Hi1 & _ & Hsame).
    rewrite (Hsame params0 eq_refl) in Hinj1'. injection Hinj1' as <-.
    eexists _, call. split; [exact Hinj1|].
    change ((conds0 :: cs) ++ [conds1]) with (conds0 :: (cs ++ [conds1])).
    rewrite installed_chain_cons, wrapper_func_call, Hinj0,
      call_params_keyword_bound by apply installed_chain_params_name.
    split; [exact Hrun|].
    rewrite Hkw. simpl in *. by rewrite Hi1, insert_insert_eq.
Qed.

(** X8.  Applying IC-Light to a handle with an empty slot and then again
    to the handle that came back leaves, in the slot of the second clone,
    the chain of the two conditioning stages, the second application's
    stage outermost; both conditioning tensors are computed with the scale
    factor of the one shared network. *)
Theorem ICLight_apply_twice m a1 a2 cc1 cc2 h wm1 h1 wm2 h2 p :
  patchers h !! m = Some p →
  model_function_wrapper (model_options p) = None →
  ICLight_apply m a1 cc1 h = (Ok wm1, h1) →
  ICLight_apply wm1 a2 cc2 h1 = (Ok wm2, h2) →
  ∃ bm samples1 samples2 conds1 conds2 p2,
    base_models h !! model p = Some bm
    ∧ cc1 !! "samples" = Some (PTensor samples1)
    ∧ concat_conds samples1 (scale_factor bm) = Ok conds1
    ∧ cc2 !! "samples" = Some (PTensor samples2)
    ∧ concat_conds samples2 (scale_factor bm) = Ok conds2
    ∧ patchers h2 !! wm2 = Some p2
    ∧ model p2 = model p
    ∧ model_function_wrapper (model_options p2)
      = Some (installed_chain [conds2; conds1])
    ∧ patchers h2 !! m = Some p.
Proof.
  intros Hp Hslot
    (p' & samples1 & bm & conds1 & icp1 & icb1 & Hp' & Hs1 & Hbm & Hcc1 & _ & _
     & -> & ->)%ICLight_apply_Ok
    (p1 & samples2 & bm2 & conds2 & icp2 & icb2 & Hp1 & Hs2 & Hbm2 & Hcc2 & _ & _
     & -> & ->)%ICLight_apply_Ok.
  rewrite Hp in Hp'. injection Hp' as <-.
  simpl in Hp1, Hbm2. rewrite snoc_lookup_length in Hp1. injection Hp1 as <-.
  simpl in Hbm2. rewrite Hbm in Hbm2. injection Hbm2 as <-.
  eexists bm, samples1, samples2, conds1, conds2, _. simpl patchers.
  do 5 (split; [done|]). split; [apply snoc_lookup_length|].
  split; [done|]. split.
  - simpl. by rewrite Hslot.
  - rewrite <-app_assoc. by apply lookup_app_l_Some.
Qed.

(** X9.  The wrapper a successful call installs refuses an empty live
    batch before anything else runs: the forward call raises
    [RuntimeError], and neither the stage that was in the slot nor the
    model is evaluated. *)
Theorem ICLight_apply_wrapper_empty_batch m a cc h wm h' :
  ICLight_apply m a cc h = (Ok wm, h') →
  ∃ p' w,
    patchers h' !! wm = Some p'
    ∧ model_function_wrapper (model_options p') = Some w
    ∧ ∀ model_fn unet_apply params rest,
        shape (input params) = 0 :: rest →
        w unet_apply params = Done (Raise RuntimeError)
        ∧ run model_fn (w native_forward params) = (Raise RuntimeError, []).
Proof.
  intros (p & samples & bm & conds & icp & icb & Hp & Hs & Hbm & Hcc & _ & _
          & -> & ->)%ICLight_apply_Ok.
  destruct (concat_conds_inv _ _ _ Hcc) as (B0 & C & crest & _ & _ & Hc & _).
  eexists _, _. simpl patchers. split; [apply snoc_lookup_length|].
  split; [done|]. intros model_fn unet_apply params rest Hi.
  rewrite !wrapper_func_call.
  by rewrite !(apply_c_concat_empty_batch conds _ rest _ Hc Hi).
Qed.


(** X11.  A call succeeds, and returns a handle that was not in the store
    before, whenever the two handles and their networks are in the store
    and the [samples] entry is a tensor with a non-empty batch axis and a
    channel axis; nothing else about the latent, the patches or the
    wrapper slot matters. *)
Theorem ICLight_apply_succeeds m a cc h p bm icp icb samples B0 C rest :
  patchers h !! m = Some p → base_models h !! model p = Some bm →
  patchers h !! a = Some icp → base_models h !! model icp = Some icb →
  cc !! "samples" = Some (PTensor samples) →
  shape samples = B0 :: C :: rest → 0 < B0 →
  ∃ h', ICLight_apply m a cc h = (Ok (length (patchers h)), h')
        ∧ patchers h !! length (patchers h) = None
        ∧ is_Some (patchers h' !! length (patchers h)).
Proof.
  intros Hp Hbm Hicp Hicb Hs Hsh HB.
  destruct B0 as [|b]; [lia|].
  destruct (concat_conds_succeeds samples (scale_factor bm) _ _ _ Hsh)
    as (conds & Hcc & _).
  eexists. split; [by eapply ICLight_apply_run|].
  split; [by apply lookup_ge_None_2|]. simpl.
  rewrite snoc_lookup_length. by eexists.
Qed.

End apply_more.

(* ===================================================================== *)
(** ** What [ICLight.apply] leaves alone, on every exit *)
(* ===================================================================== *)

Lemma preserves_bind {St A B} (P : St → Prop) (m : StateE St A) (f : A → StateE St B) :
  preserves P m → (∀ a, preserves P (f a)) → preserves P (st_bind m f).
Proof.
  intros Hm Hf s r s' HP. unfold st_bind.
  destruct (m s) as [[a|e] s1] eqn:Hms.
  - intros Hfa. by eapply (Hf a), Hfa; eapply Hm.
  - intros [= <- <-]. by eapply Hm.
Qed.

Lemma preserves_pure {St A} (P : St → Prop) (m : StateE St A) :
  (∀ s, (m s).2 = s) → preserves P m.
Proof. intros Hm s r s' HP Hs. specialize (Hm s). rewrite Hs in Hm. by subst. Qed.

Section apply_frame.
Context {T : Type} `{!Scalar T}.
Implicit Types (h : Heap T) (p : ModelPatcher T) (cc : gmap string (pyval T)).

Lemma with_clone_set_patcher h q :
  preserves (with_clone h) (set_patcher (length (patchers h)) q).
Proof.
  intros h1 r h2 (Hd & Ht & Hb & q0 & Hq) [= _ <-]. unfold with_clone. simpl.
  split_and!; try done. exists q. by rewrite Hq, snoc_insert_length.
Qed.

Lemma with_clone_empty_cache h : preserves (with_clone h) empty_cache.
Proof. by intros h1 r h2 (Hd & Ht & Hb & Hq) [= _ <-]. Qed.

(** X10.  Whatever way a call ends, it leaves the store it found: the
    device and dtype settings, the networks and every handle that existed
    are as before, and at most one object, the clone, was added.  A failed
    call has changed nothing a caller can reach. *)
Theorem ICLight_apply_any_exit m a cc h r h' :
  ICLight_apply m a cc h = (r, h') →
  torch_device h' = torch_device h ∧ unet_dtype h' = unet_dtype h
  ∧ base_models h' = base_models h
  ∧ (∀ l, l < length (patchers h) → patchers h' !! l = patchers h !! l)
  ∧ length (patchers h) ≤ length (patchers h') ≤ S (length (patchers h))
  ∧ (∀ wm, r = Ok wm → wm = length (patchers h)
                       ∧ length (patchers h') = S (length (patchers h))).
Proof.
  unfold ICLight_apply. case_decide as Hs.
  { intros [= <- <-]. split_and!; try done; lia. }
  unfold st_bind at 1 2 3. simpl.
  unfold clone. unfold st_bind at 1. unfold get_patcher at 1.
  destruct (patchers h !! m) as [p|] eqn:Hp; simpl.
  2: { intros [= <- <-]. split_and!; try done; lia. }
  set (h1 := with_patchers h (patchers h ++ [p])).
  assert (with_clone h h1) as H1 by (by split_and!; [..|exists p]).
  intros Hrest.
  assert (with_clone h h' ∧ ∀ wm, r = Ok wm → wm = length (patchers h))
    as [(Hd & Ht & Hb & q & Hq) Hwm].
  { revert Hrest. generalize h1 H1. clear h1 H1. intros h1 H1 Hrest. split.
    - revert h1 r h' H1 Hrest.
      repeat (apply preserves_bind; [|intros ?]);
        try (by apply preserves_pure);
        try apply with_clone_empty_cache;
        apply with_clone_set_patcher.
    - intros wm ->.
      repeat (apply st_bind_Ok in Hrest as (? & ? & _ & Hrest)).
      by injection Hrest as <- _. }
  rewrite Hq, length_app. simpl. split_and!; try done; try lia.
  - intros l Hl. by apply lookup_app_l.
  - intros wm Hr. split; [by apply Hwm|lia].
Qed.

End apply_frame.

(* ===================================================================== *)
(** ** More on [apply_mask] *)
(* ===================================================================== *)

Lemma broadcast_rev_broadcasts sa sh :
  Forall2 (λ a n, a = n ∨ a = 1) sa sh → broadcast_rev sh sa = Some sh.
Proof.
  induction 1 as [|a n sa sh Han _ IH]; [done|]. simpl. rewrite IH.
  assert (broadcast_dim n a = Some n) as ->; [|done].
  unfold broadcast_dim. repeat case_decide; destruct Han; congruence.
Qed.

Lemma broadcast_shapes_broadcasts sa sh :
  broadcasts_to sa sh → broadcast_shapes sh sa = Some sh.
Proof.
  intros Hb. unfold broadcast_shapes.
  rewrite broadcast_rev_broadcasts by by apply Forall2_reverse.
  simpl. by rewrite reverse_involutive.
Qed.

Lemma expand_index_in_range sa sh idx :
  broadcasts_to sa sh → in_range sh idx = true →
  in_range sa (expand_index sa idx) = true.
Proof.
  intros Hb Hin. unfold expand_index.
  assert (length idx = length sa) as ->.
  { apply Forall2_length in Hb. rewrite Hb. clear Hb.
    revert idx Hin. induction sh as [|n r IH]; intros [|i idx]; simpl; try done.
    intros [_ Hr]%andb_true_iff. by rewrite (IH idx). }
  rewrite Nat.sub_diag, drop_0. revert idx Hin.
  induction Hb as [|a n sa sh Han _ IH]; intros [|i idx]; simpl; try done.
  intros [Hi Hr]%andb_true_iff. apply bool_decide_eq_true in Hi.
  rewrite (IH idx) by done. rewrite andb_true_r. apply bool_decide_eq_true.
  case_decide; [lia|]. destruct Han; [lia|done].
Qed.

Section mask_more.
Context {T : Type} `{!Scalar T}.
Implicit Types (image alpha : Tensor T).

(** An operand against one that broadcasts to its shape: the result has
    the first operand's shape, and its element at an index combines the
    first operand's element there with the second's at the expanded
    index. *)
Lemma broadcast_op_broadcasts (f : DType → T → T → T) (x y : Tensor T) :
  wf x → wf y → broadcasts_to (shape y) (shape x) → device x = device y →
  ∃ d, broadcast_op f x y
       = Ok (mkTensor (device x) (promote_types (dtype x) (dtype y)) (shape x) d)
     ∧ length d = numel (shape x)
     ∧ ∀ idx, in_range (shape x) idx = true →
         ∃ u v, get x idx = Some u
                ∧ get y (expand_index (shape y) idx) = Some v
                ∧ d !! offset (shape x) idx
                  = Some (f (promote_types (dtype x) (dtype y)) u v).
Proof.
  intros Hwx Hwy Hb Hdev. unfold broadcast_op.
  rewrite decide_True by done. rewrite broadcast_shapes_broadcasts by done.
  set (dt := promote_types (dtype x) (dtype y)).
  set (g := λ idx, u ← get x (expand_index (shape x) idx);
                   v ← get y (expand_index (shape y) idx); Some (f dt u v)).
  assert (∀ idx, in_range (shape x) idx = true →
            ∃ u v, get x idx = Some u
                   ∧ get y (expand_index (shape y) idx) = Some v
                   ∧ g idx = Some (f dt u v)) as Hg.
  { intros idx Hin. unfold g. rewrite (expand_index_id _ _ Hin).
    destruct (get_in_range x idx) as [u Hu]; [done..|].
    destruct (get_in_range y (expand_index (shape y) idx)) as [v Hv];
      [done|by eapply expand_index_in_range|].
    exists u, v. by rewrite Hu, Hv. }
  destruct (mapM g (indices (shape x))) as [d|] eqn:Hd.
  2: { exfalso. assert (is_Some (mapM g (indices (shape x)))) as [? Hs];
         [|by rewrite Hs in Hd].
       apply mapM_is_Some, Forall_forall. intros idx Hin%indices_in_range.
       destruct (Hg idx Hin) as (u & v & _ & _ & Hgi).
       unfold compose. rewrite Hgi. by eexists. }
  exists d. split; [done|].
  pose proof (length_mapM _ _ _ Hd) as Hlen. rewrite indices_length in Hlen.
  split; [done|]. intros idx Hin.
  destruct (Hg idx Hin) as (u & v & Hu & Hv & Hgi). exists u, v.
  split; [done|]. split; [done|].
  apply mapM_Some in Hd.
  destruct (Forall2_lookup_l _ _ _ _ _ Hd (indices_lookup _ _ Hin)) as (r & -> & Hr).
  by rewrite <-Hr, Hgi.
Qed.

Lemma mask_of_props alpha :
  wf alpha →
  wf (mask_of alpha) ∧ device (mask_of alpha) = device alpha
  ∧ dtype (mask_of alpha) = dtype alpha ∧ data (mask_of alpha) = data alpha.
Proof.
  intros Hwf. unfold mask_of. case_decide; [|done]. split_and!; try done.
  unfold wf in *. simpl. rewrite Hwf, numel_app. simpl. lia.
Qed.

Lemma get_grey (t : Tensor T) idx :
  get (mul_scalar (rsub_one t) s_half) idx
  = (λ a, smul (dtype t) (ssub (dtype t) s_one a) s_half) <$> get t idx.
Proof.
  unfold get, mul_scalar, rsub_one. simpl. destruct (in_range _ _); [|done].
  rewrite !list_lookup_fmap. by destruct (data t !! _).
Qed.

(** The elements of [image * alpha + (1 - alpha) * 0.5] when the mask
    broadcasts to the image. *)
Lemma apply_mask_general image alpha :
  wf image → wf alpha → device image = device alpha →
  broadcasts_to (shape (mask_of alpha)) (shape image) →
  let dta := dtype alpha in
  let dt1 := promote_types (dtype image) dta in
  let dt2 := promote_types dt1 dta in
  ∃ d, apply_mask image (PTensor alpha)
       = Ok (mkTensor (device image) dt2 (shape image) d)
     ∧ length d = numel (shape image)
     ∧ ∀ idx, in_range (shape image) idx = true →
         ∃ x a, get image idx = Some x
                ∧ get (mask_of alpha) (expand_index (shape (mask_of alpha)) idx) = Some a
                ∧ d !! offset (shape image) idx
                  = Some (sadd dt2 (smul dt1 x a)
                            (smul dta (ssub dta s_one a) s_half)).
Proof.
  intros Hwi Hwa Hdev Hb dta dt1 dt2. unfold apply_mask.
  change (if decide (ndim alpha = 3) then unsqueeze_last alpha else alpha)
    with (mask_of alpha).
  destruct (mask_of_props alpha Hwa) as (Hw' & Hdev' & Hdt' & Hd').
  destruct (broadcast_op_broadcasts smul image (mask_of alpha))
    as (d1 & -> & Hl1 & Hd1); [done..|congruence|].
  ok_step.
  set (ia := mkTensor _ _ _ d1).
  set (grey := mul_scalar (rsub_one (mask_of alpha)) s_half).
  destruct (broadcast_op_broadcasts sadd ia grey)
    as (d2 & -> & Hl2 & Hd2); [done| |done|simpl; congruence|].
  { unfold wf, grey. simpl. by rewrite !length_fmap. }
  exists d2. subst ia grey. simpl device. simpl dtype. rewrite Hdt'.
  split; [done|]. split; [done|]. intros idx Hin.
  destruct (Hd1 idx Hin) as (x & a & Hx & Ha & Hxa).
  destruct (Hd2 idx Hin) as (u & v & Hu & Hv & Huv).
  unfold get in Hu. simpl shape in Hu. simpl data in Hu.
  rewrite Hin, Hxa in Hu. injection Hu as <-.
  simpl shape in Hv. rewrite get_grey, Ha in Hv. simpl in Hv.
  injection Hv as <-.
  exists x, a. split; [done|]. split; [done|].
  simpl in Huv. rewrite Huv. by rewrite Hdt'.
Qed.

Lemma broadcast_op_mismatch (f : DType → T → T → T) (x y : Tensor T) :
  broadcast_shapes (shape x) (shape y) = None →
  broadcast_op f x y = Raise RuntimeError.
Proof. intros Hn. unfold broadcast_op. rewrite Hn. by case_decide. Qed.

(** X12.  A mask of rank 3 and the same mask with a trailing axis of size
    1 give the same result, whatever the result is. *)
Theorem apply_mask_unsqueezed image alpha :
  ndim alpha = 3 →
  apply_mask image (PTensor (unsqueeze_last alpha))
  = apply_mask image (PTensor alpha).
Proof.
  intros Hn. unfold apply_mask.
  rewrite (decide_True (P := ndim alpha = 3)) by done.
  rewrite decide_False; [done|].
  unfold ndim in *. simpl. rewrite length_app, Hn. simpl. lia.
Qed.

(** X13.  Broadcasting law of [apply_mask]: a mask whose sizes, once it
    has a channel axis, are the image's or 1 axis by axis (one mask for a
    whole batch, a mask without channels) is applied to every element of
    the image; the result has the image's shape and device, the promoted
    dtype, and at each index the blend of the image's element with grey by
    the mask's element at the expanded index. *)
Theorem apply_mask_broadcast image alpha :
  wf image → wf alpha → device image = device alpha →
  broadcasts_to (shape (mask_of alpha)) (shape image) →
  ∃ result,
    apply_mask image (PTensor alpha) = Ok result
    ∧ shape result = shape image ∧ device result = device image
    ∧ dtype result
      = promote_types (promote_types (dtype image) (dtype alpha)) (dtype alpha)
    ∧ wf result
    ∧ ∀ idx, in_range (shape image) idx = true →
        ∃ x a, get image idx = Some x
               ∧ get (mask_of alpha) (expand_index (shape (mask_of alpha)) idx) = Some a
               ∧ get result idx
                 = Some (sadd (dtype result)
                           (smul (promote_types (dtype image) (dtype alpha)) x a)
                           (smul (dtype alpha) (ssub (dtype alpha) s_one a) s_half)).
Proof.
  intros Hwi Hwa Hdev Hb.
  destruct (apply_mask_general image alpha Hwi Hwa Hdev Hb) as (d & -> & Hl & Hd).
  eexists. split; [done|]. simpl. split_and!; try done.
  intros idx Hin. destruct (Hd idx Hin) as (x & a & Hx & Ha & Hxa).
  exists x, a. split; [done|]. split; [done|].
  unfold get. simpl. by rewrite Hin.
Qed.

(** X14.  A mask whose batch, height or width is neither the image's nor 1
    (nor the image's size 1) is refused: [apply_mask] raises
    [RuntimeError], for a mask of rank 3 and for one with a channel axis of
    size 1 alike. *)
Theorem apply_mask_size_mismatch image alpha B H W C B' H' W' :
  shape image = [B; H; W; C] →
  shape alpha = [B'; H'; W'] ∨ shape alpha = [B'; H'; W'; 1] →
  incompatible B B' ∨ incompatible H H' ∨ incompatible W W' →
  apply_mask image (PTensor alpha) = Raise RuntimeError.
Proof.
  intros Hsi Hsa Hinc. unfold apply_mask.
  change (if decide (ndim alpha = 3) then unsqueeze_last alpha else alpha)
    with (mask_of alpha).
  assert (shape (mask_of alpha) = [B'; H'; W'; 1]) as Hs'.
  { unfold mask_of, ndim. destruct Hsa as [Hs|Hs]; rewrite Hs; simpl; [|done].
    by rewrite Hs. }
  rewrite broadcast_op_mismatch; [done|].
  rewrite Hsi, Hs'. unfold broadcast_shapes. simpl.
  rewrite broadcast_dim_1_r. simpl.
  unfold incompatible in Hinc. unfold broadcast_dim.
  repeat case_decide; simpl; try done; lia.
Qed.

End mask_more.

(** Blending a value of the unit interval with grey by a weight of the
    unit interval stays in the unit interval. *)
Lemma blend_range (x a : Qc) :
  Qcle (Q2Qc 0) x → Qcle x (Q2Qc 1) → Qcle (Q2Qc 0) a → Qcle a (Q2Qc 1) →
  Qcle (Q2Qc 0) (Qcplus (Qcmult x a) (Qcmult (Qcminus (Q2Qc 1) a) (Q2Qc (1 # 2))))
  ∧ Qcle (Qcplus (Qcmult x a) (Qcmult (Qcminus (Q2Qc 1) a) (Q2Qc (1 # 2)))) (Q2Qc 1).
Proof.
  unfold Qcle. intros Hx0 Hx1 Ha0 Ha1.
  unfold Qcplus, Qcmult, Qcminus, Qcopp, Qcplus, Q2Qc in *. cbn [this] in *.
  rewrite !Qred_correct in *.
  split; nra.
Qed.

(** X15.  In exact arithmetic, an image and a mask with all their elements
    between 0 and 1 give a result with all its elements between 0 and 1:
    [apply_mask] maps images to images. *)
Theorem apply_mask_unit_range (image alpha : Tensor Qc) :
  wf image → wf alpha → device image = device alpha →
  broadcasts_to (shape (mask_of alpha)) (shape image) →
  Forall (λ x, Qcle (Q2Qc 0) x ∧ Qcle x (Q2Qc 1)) (data image) →
  Forall (λ a, Qcle (Q2Qc 0) a ∧ Qcle a (Q2Qc 1)) (data alpha) →
  ∃ result,
    apply_mask image (PTensor alpha) = Ok result
    ∧ Forall (λ y, Qcle (Q2Qc 0) y ∧ Qcle y (Q2Qc 1)) (data result).
Proof.
  intros Hwi Hwa Hdev Hb Hx Ha.
  destruct (apply_mask_general image alpha Hwi Hwa Hdev Hb) as (d & -> & Hl & Hd).
  eexists. split; [done|]. simpl data. apply Forall_lookup. intros k y Hk.
  destruct (offset_surj (shape image) k) as (idx & Hin & <-).
  { rewrite <-Hl. by eapply lookup_lt_Some. }
  destruct (Hd idx Hin) as (x & a & Hgx & Hga & Hy).
  rewrite Hy in Hk. injection Hk as <-.
  apply get_lookup, list_elem_of_lookup_2 in Hgx, Hga.
  destruct (mask_of_props alpha Hwa) as (_ & _ & _ & Hdata).
  rewrite Hdata in Hga. rewrite Forall_forall in Hx, Ha.
  destruct (Hx x Hgx), (Ha a Hga). by apply blend_range.
Qed.

(* ===================================================================== *)
(** ** More on [VAEEncodeArgMax.encode] *)
(* ===================================================================== *)

Section vae_more.
Context {St Pixels Latent : Type}.

(** X16.  The standard encode is only ever run with sampling switched off:
    two standard encodes that agree on every encoder state with the flag
    off give the same call of [VAEEncodeArgMax.encode], on every encoder
    and whatever its flag says; and an encoder without the flag is refused
    whatever the standard encode is. *)
Theorem VAEEncodeArgMax_encode_sampling_off
    (enc enc' : Pixels → StateE (bool * St) Latent) vae pixels :
  (∀ rest, enc pixels (false, rest) = enc' pixels (false, rest)) →
  VAEEncodeArgMax_encode enc vae pixels = VAEEncodeArgMax_encode enc' vae pixels
  ∧ sampling_flag (VAEEncodeArgMax_encode enc vae pixels).2 = sampling_flag vae.
Proof.
  intros Hagree. destruct vae as [flag rest|rest]; [|done].
  by rewrite !VAEEncodeArgMax_encode_unfold, Hagree.
Qed.

End vae_more.

(* ===================================================================== *)
(** ** The node registry *)
(* ===================================================================== *)

(** X17.  The two registry tables name the same nodes: every registered
    node class has a display name and every display name belongs to a
    registered node; no two nodes share a class or a display name. *)
Theorem node_registry_consistent :
  dom NODE_CLASS_MAPPINGS = dom NODE_DISPLAY_NAME_MAPPINGS
  ∧ (∀ k1 k2 cls, NODE_CLASS_MAPPINGS !! k1 = Some cls →
                   NODE_CLASS_MAPPINGS !! k2 = Some cls → k1 = k2)
  ∧ (∀ k1 k2 name, NODE_DISPLAY_NAME_MAPPINGS !! k1 = Some name →
                    NODE_DISPLAY_NAME_MAPPINGS !! k2 = Some name → k1 = k2).
Proof.
  unfold NODE_CLASS_MAPPINGS, NODE_DISPLAY_NAME_MAPPINGS. split_and!.
  - by rewrite !dom_insert_L, !dom_singleton_L.
  - intros k1 k2 cls H1 H2.
    repeat (apply lookup_insert_Some in H1 as [[<- ?]|[? H1]]);
      try (apply lookup_singleton_Some in H1 as [<- ?]);
      repeat (apply lookup_insert_Some in H2 as [[<- ?]|[? H2]]);
      try (apply lookup_singleton_Some in H2 as [<- ?]);
      congruence.
  - intros k1 k2 name H1 H2.
    repeat (apply lookup_insert_Some in H1 as [[<- ?]|[? H1]]);
      try (apply lookup_singleton_Some in H1 as [<- ?]);
      repeat (apply lookup_insert_Some in H2 as [[<- ?]|[? H2]]);
      try (apply lookup_singleton_Some in H2 as [<- ?]);
      congruence.
Qed.

(* ===================================================================== *)
(** ** [convert_weights.py] *)
(* ===================================================================== *)

Lemma string_app_nil (s : string) : "" +:+ s = s.
Proof. reflexivity. Qed.

Lemma string_app_cons ch (s1 s2 : string) :
  String ch s1 +:+ s2 = String ch (s1 +:+ s2).
Proof. reflexivity. Qed.

Lemma string_app_assoc (s1 s2 s3 : string) :
  (s1 +:+ s2) +:+ s3 = s1 +:+ s2 +:+ s3.
Proof.
  induction s1 as [|ch s1 IH]; [done|].
  by rewrite !string_app_cons, IH.
Qed.

(** A joined path ends with its last component. *)
Lemma path_join_suffix a b : ∃ pre, path_join a b = pre +:+ b.
Proof.
  unfold path_join. destruct (String.prefix "/" b); [by exists ""|].
  destruct (_ || _); [by exists a|].
  exists (a +:+ "/"). symmetry. apply string_app_assoc.
Qed.

(** The checkpoint read is never the file written: their names end
    differently. *)
Lemma model_path_not_output models_dir : model_path models_dir ≠ output_path.
Proof.
  unfold model_path, output_path.
  destruct (path_join_suffix (path_join models_dir "ic_light")
              "iclight_sd15_fbc.safetensors") as [pre ->].
  intros H.
  do 38 (destruct pre as [|? pre];
         [rewrite string_app_nil in H; discriminate H
         |rewrite string_app_cons in H;
          first [discriminate H | injection H as _ H]]).
Qed.

Section convert_weights_laws.
Context {T : Type} `{!Scalar T}.
Context (convert_unet_state_dict : gmap string (Tensor T) → gmap string (Tensor T)).
Implicit Types (fs : gmap string (gmap string (Tensor T))).

(** X18.  When the checkpoint is there, the script writes one file; it
    holds exactly the names the key conversion produced from the loaded
    tensors, and under each the converted tensor in half precision, with
    its shape and device. *)
Theorem convert_weights_saved models_dir fs file :
  fs !! model_path models_dir = Some file →
  let loaded := to_device Cpu <$> file in
  ∃ fs' written,
    convert_weights convert_unet_state_dict models_dir fs = (Saved, fs')
    ∧ fs' !! output_path = Some written
    ∧ dom written = dom (convert_unet_state_dict loaded)
    ∧ ∀ key t, written !! key = Some t →
        dtype t = Float16
        ∧ ∃ t0, convert_unet_state_dict loaded !! key = Some t0
                ∧ shape t = shape t0 ∧ device t = device t0
                ∧ data t = s_cast Float16 <$> data t0
                ∧ (wf t0 → wf t).
Proof.
  intros Hl loaded. unfold convert_weights. fold (model_path models_dir).
  rewrite Hl. eexists _, _. split; [done|]. fold output_path.
  rewrite lookup_insert_eq.
  split; [done|]. split; [by rewrite dom_fmap_L|].
  intros key t [t0 [<- Ht0]]%lookup_fmap_Some. split; [done|].
  exists t0. split_and!; try done.
  unfold wf. simpl. by rewrite length_fmap.
Qed.

(** X19.  Whatever way the script ends, every file but the one it writes
    is as before, the checkpoint it read among them; and it ends without
    writing exactly when the checkpoint is missing. *)
Theorem convert_weights_frame models_dir fs :
  let out := convert_weights convert_unet_state_dict models_dir fs in
  (∀ path, path ≠ output_path → out.2 !! path = fs !! path)
  ∧ out.2 !! model_path models_dir = fs !! model_path models_dir
  ∧ (out.1 = FileNotFoundError ↔ fs !! model_path models_dir = None)
  ∧ (out.1 = FileNotFoundError → out.2 = fs).
Proof.
  unfold convert_weights. fold (model_path models_dir). fold output_path.
  pose proof (model_path_not_output models_dir) as Hne.
  destruct (fs !! model_path models_dir) as [file|] eqn:Hl; simpl.
  - split_and!; try done.
    + intros path Hp. by rewrite lookup_insert_ne.
    + by rewrite lookup_insert_ne.
  - by split_and!.
Qed.

(** X20.  Running the script again changes nothing: the second run reads
    the same checkpoint and writes the same file. *)
Theorem convert_weights_rerun models_dir fs :
  let once := convert_weights convert_unet_state_dict models_dir fs in
  convert_weights convert_unet_state_dict models_dir once.2 = once.
Proof.
  unfold convert_weights. fold (model_path models_dir). fold output_path.
  pose proof (model_path_not_output models_dir) as Hne.
  destruct (fs !! model_path models_dir) as [file|] eqn:Hl; simpl.
  - rewrite lookup_insert_ne, Hl by done. by rewrite insert_insert_eq.
  - by rewrite Hl.
Qed.

End convert_weights_laws.

(* ===================================================================== *)
(** ** The further laws on concrete inputs *)
(* ===================================================================== *)

Lemma concat_conds_any_rank_witness :
  wf ex_latent5 ∧ shape ex_latent5 = [2; 3; 2; 1; 1] ∧ 0 < 2
  ∧ ∃ conds, concat_conds ex_latent5 ex_scale = Ok conds
             ∧ shape conds = [1; 6; 2; 1; 1] ∧ wf conds.
Proof.
  split; [reflexivity|]. split; [reflexivity|]. split; [lia|].
  destruct (concat_conds_any_rank ex_latent5 ex_scale 2 3 [2; 1; 1])
    as (conds & Hc & Hconds & Hwf); [reflexivity|reflexivity|lia|].
  exists conds. split; [exact Hc|]. split; [|exact Hwf].
  rewrite Hconds. reflexivity.
Defined.

Lemma ex_params_injected :
  apply_c_concat ex_conds ex_params
  = Ok (mkUnetParams (input ex_params) (timestep ex_params)
          (<["c_concat" := PTensor ex_injected]> (c ex_params))
          (cond_or_uncond ex_params)).
Proof. reflexivity. Qed.

Lemma apply_c_concat_frame_witness :
  ∃ params',
    apply_c_concat ex_conds ex_params = Ok params'
    ∧ input params' = input ex_params
    ∧ c params' !! "c_crossattn" = Some (PObject "prompt").
Proof.
  eexists. split; [exact ex_params_injected|].
  destruct (apply_c_concat_frame ex_conds ex_params _ ex_params_injected)
    as (Hin & _ & _ & Hkeep & _).
  split; [exact Hin|]. rewrite Hkeep; [reflexivity|discriminate].
Defined.

Lemma apply_c_concat_idempotent_witness :
  ∃ params',
    apply_c_concat ex_conds ex_params = Ok params'
    ∧ apply_c_concat ex_conds params' = Ok params'.
Proof.
  eexists. split; [exact ex_params_injected|].
  exact (apply_c_concat_idempotent ex_conds ex_params _ ex_params_injected).
Defined.

Lemma apply_c_concat_outcome_witness :
  concat_conds ex_samples ex_scale = Ok ex_conds
  ∧ apply_c_concat ex_conds ex_params_empty = Raise RuntimeError
  ∧ ∃ params', apply_c_concat ex_conds ex_params = Ok params'.
Proof.
  split; [reflexivity|]. split.
  - exact (apply_c_concat_outcome ex_samples ex_scale ex_conds ex_params_empty eq_refl).
  - exact (apply_c_concat_outcome ex_samples ex_scale ex_conds ex_params eq_refl).
Defined.

Lemma ex_chain_batch_one :
  Forall (λ conds : Tensor Qc, ∃ crest, shape conds = 1 :: crest)
    [ex_conds2; ex_conds].
Proof. repeat constructor; by eexists. Qed.

Lemma installed_chain_forward_once_witness :
  shape (input ex_params) = [3; 4; 1; 2] ∧ 0 < 3
  ∧ ∃ call,
      run ex_model_fn (installed_chain [ex_conds2; ex_conds] native_forward ex_params)
      = (ex_model_fn call, [call])
      ∧ call_x call = input ex_params.
Proof.
  split; [reflexivity|]. split; [lia|].
  destruct (installed_chain_forward_once [ex_conds2; ex_conds] ex_model_fn
              ex_params 3 [4; 1; 2] ex_chain_batch_one eq_refl)
    as (call & Hrun & Hx & _); [lia|].
  exists call. split; [exact Hrun|exact Hx].
Defined.

Lemma installed_chain_first_wins_witness :
  ∃ call,
    run ex_model_fn (installed_chain [ex_conds2; ex_conds] native_forward ex_params)
    = (ex_model_fn call, [call])
    ∧ call_kwargs call = <["c_concat" := PTensor ex_injected]> (c ex_params).
Proof.
  destruct (installed_chain_first_wins [ex_conds2] ex_conds ex_model_fn
              ex_params 3 [4; 1; 2] ex_chain_batch_one eq_refl)
    as (params1 & call & Hinj & Hrun & Hkw); [lia|].
  exists call. split; [exact Hrun|].
  rewrite Hkw. rewrite ex_params_injected in Hinj. injection Hinj as <-.
  reflexivity.
Defined.

Lemma ex_heap_apply2 :
  ICLight_apply 2 1 ex_c_concat2 ex_heap_relit = (Ok 3, ex_heap_relit2).
Proof.
  by apply (ICLight_apply_run 2 1 ex_c_concat2 ex_heap_relit
              (relit (ex_patcher 0 None) ex_conds
                 (to_dtype_device Float16 (Cuda 0) <$> state_dict ex_ic_base))
              ex_samples2 ex_base ex_conds2 (ex_patcher 1 None) ex_ic_base).
Qed.

Lemma ICLight_apply_twice_witness :
  ∃ p2,
    patchers ex_heap_relit2 !! 3 = Some p2
    ∧ model_function_wrapper (model_options p2)
      = Some (installed_chain [ex_conds2; ex_conds])
    ∧ patchers ex_heap_relit2 !! 0 = Some (ex_patcher 0 None).
Proof.
  destruct (ICLight_apply_twice 0 1 1 ex_c_concat ex_c_concat2 ex_heap
              2 ex_heap_relit 3 ex_heap_relit2 (ex_patcher 0 None)
              eq_refl eq_refl ex_heap_apply ex_heap_apply2)
    as (bm & s1 & s2 & c1 & c2 & p2 & Hbm & Hs1 & Hc1 & Hs2 & Hc2 & Hp2 & _
        & Hslot & Hm).
  injection Hbm as <-. injection Hs1 as <-. injection Hs2 as <-.
  injection Hc1 as <-. injection Hc2 as <-.
  exists p2. split; [exact Hp2|]. split; [exact Hslot|exact Hm].
Defined.

Lemma ICLight_apply_wrapper_empty_batch_witness :
  ∃ p' w,
    patchers ex_heap_relit !! 2 = Some p'
    ∧ model_function_wrapper (model_options p') = Some w
    ∧ run ex_model_fn (w native_forward ex_params_empty) = (Raise RuntimeError, []).
Proof.
  destruct (ICLight_apply_wrapper_empty_batch 0 1 ex_c_concat ex_heap 2
              ex_heap_relit ex_heap_apply)
    as (p' & w & Hp' & Hw & Hrun).
  exists p', w. split; [exact Hp'|]. split; [exact Hw|].
  exact (proj2 (Hrun ex_model_fn native_forward ex_params_empty [4; 1; 2] eq_refl)).
Defined.

Lemma ex_heap_apply_bad :
  ICLight_apply 0 1 ex_c_concat_bad ex_heap
  = (Raise TypeError, with_patchers ex_heap (patchers ex_heap ++ [ex_patcher 0 None])).
Proof. by apply (ICLight_apply_bad_samples 0 1 _ ex_heap _ ex_base "None"). Qed.

Lemma ICLight_apply_any_exit_witness :
  ICLight_apply 0 1 ex_c_concat_bad ex_heap
  = (Raise TypeError, with_patchers ex_heap (patchers ex_heap ++ [ex_patcher 0 None]))
  ∧ base_models (with_patchers ex_heap (patchers ex_heap ++ [ex_patcher 0 None]))
    = base_models ex_heap
  ∧ ∀ l, l < 2 →
      patchers (with_patchers ex_heap (patchers ex_heap ++ [ex_patcher 0 None])) !! l
      = patchers ex_heap !! l.
Proof.
  split; [exact ex_heap_apply_bad|].
  destruct (ICLight_apply_any_exit 0 1 ex_c_concat_bad ex_heap _ _ ex_heap_apply_bad)
    as (_ & _ & Hb & Hl & _).
  split; [exact Hb|exact Hl].
Defined.

Lemma ICLight_apply_succeeds_witness :
  ∃ h', ICLight_apply 0 1 ex_c_concat ex_heap = (Ok 2, h')
        ∧ patchers ex_heap !! 2 = None
        ∧ is_Some (patchers h' !! 2).
Proof.
  exact (ICLight_apply_succeeds 0 1 ex_c_concat ex_heap
           (ex_patcher 0 None) ex_base (ex_patcher 1 None) ex_ic_base
           ex_samples 2 1 [1; 2] eq_refl eq_refl eq_refl eq_refl eq_refl eq_refl
           (Nat.lt_0_succ 1)).
Defined.

Lemma apply_mask_unsqueezed_witness :
  ndim ex_alpha = 3
  ∧ apply_mask ex_image (PTensor (unsqueeze_last ex_alpha))
    = apply_mask ex_image (PTensor ex_alpha).
Proof.
  split; [reflexivity|].
  exact (apply_mask_unsqueezed ex_image ex_alpha eq_refl).
Defined.

Lemma ex_alpha1_broadcasts :
  broadcasts_to (shape (mask_of ex_alpha1)) (shape ex_image2).
Proof.
  change (Forall2 (λ a n, a = n ∨ a = 1) [1; 1; 2; 1] [2; 1; 2; 3]).
  repeat (constructor; [first [by left | by right]|]). constructor.
Qed.

(** One mask for a batch of two images: the second image's first pixel
    row is blended with the mask's first element. *)
Lemma apply_mask_broadcast_witness :
  ∃ result,
    apply_mask ex_image2 (PTensor ex_alpha1) = Ok result
    ∧ shape result = [2; 1; 2; 3]
    ∧ get result [1; 0; 0; 1]
      = Some (Qcplus (Qcmult (Q2Qc 1) (Q2Qc (1 # 4)))
                (Qcmult (Qcminus (Q2Qc 1) (Q2Qc (1 # 4))) (Q2Qc (1 # 2)))).
Proof.
  destruct (apply_mask_broadcast ex_image2 ex_alpha1)
    as (result & Hr & Hs & _ & _ & _ & Helem);
    [reflexivity|reflexivity|reflexivity|exact ex_alpha1_broadcasts|].
  exists result. split; [exact Hr|]. split; [exact Hs|].
  destruct (Helem [1; 0; 0; 1] eq_refl) as (x & a & Hx & Ha & Hres).
  injection Hx as <-. injection Ha as <-.
  rewrite Hres. reflexivity.
Defined.

Lemma apply_mask_size_mismatch_witness :
  incompatible 2 5
  ∧ apply_mask ex_image (PTensor ex_alpha_wide) = Raise RuntimeError.
Proof.
  assert (incompatible 2 5) as Hinc by (unfold incompatible; lia).
  split; [exact Hinc|].
  apply (apply_mask_size_mismatch ex_image ex_alpha_wide 1 1 2 3 1 1 5);
    [reflexivity|left; reflexivity|right; right; exact Hinc].
Defined.

Lemma apply_mask_unit_range_witness :
  ∃ result,
    apply_mask ex_image2 (PTensor ex_alpha1) = Ok result
    ∧ Forall (λ y, Qcle (Q2Qc 0) y ∧ Qcle y (Q2Qc 1)) (data result).
Proof.
  apply (apply_mask_unit_range ex_image2 ex_alpha1);
    [reflexivity|reflexivity|reflexivity|exact ex_alpha1_broadcasts| |];
    simpl data; repeat (constructor; [split; by vm_compute|]); constructor.
Defined.

Lemma VAEEncodeArgMax_encode_sampling_off_witness :
  VAEEncodeArgMax_encode ex_VAEEncode_encode (AutoencoderKL true 0) [1; 2]
  = VAEEncodeArgMax_encode ex_VAEEncode_encode_strict (AutoencoderKL true 0) [1; 2]
  ∧ sampling_flag
      (VAEEncodeArgMax_encode ex_VAEEncode_encode (AutoencoderKL true 0) [1; 2]).2
    = Some true.
Proof.
  apply (VAEEncodeArgMax_encode_sampling_off ex_VAEEncode_encode
           ex_VAEEncode_encode_strict (AutoencoderKL true 0) [1; 2]).
  intros rest. reflexivity.
Defined.

Lemma convert_weights_saved_witness :
  ex_fs !! model_path "models"
  = Some {[ "conv_in.weight" := mkTensor Cpu Float32 [1; 2] (ex_q <$> [5; 6]) ]}
  ∧ ∃ fs' written,
      convert_weights ex_convert "models" ex_fs = (Saved, fs')
      ∧ fs' !! output_path = Some written
      ∧ dom written
        = dom (ex_convert
                 (to_device Cpu
                    <$> {[ "conv_in.weight" :=
                             mkTensor Cpu Float32 [1; 2] (ex_q <$> [5; 6]) ]})).
Proof.
  split; [reflexivity|].
  destruct (convert_weights_saved ex_convert "models" ex_fs
              {[ "conv_in.weight" := mkTensor Cpu Float32 [1; 2] (ex_q <$> [5; 6]) ]})
    as (fs' & written & Hrun & Hw & Hdom & _); [reflexivity|].
  exists fs', written. split; [exact Hrun|]. split; [exact Hw|exact Hdom].
Defined.

